(** * sci.ts: the set-partitioning problem, its local search and the
      steady-state genetic algorithm

    A shallow embedding of [SPProblem] (examples/airlineCrewScheduling),
    of the driver [ssgarow] and of the generic operator [tpx], with the
    properties of the specification stated and proved over it.

    Conventions of the embedding.
    - A finite JavaScript number is a rational ([Q]); a [num] is such a
      number, an infinity or NaN.  The arithmetic of the source is the
      arithmetic of binary64: the exact result rounded to the nearest
      double, ties to even, with overflow to an infinity ([round64],
      [num_add], [num_mul], [num_div]).  The quotients and the products
      that decide how often a loop runs ([averageNonZeros], the target
      of [generate], the mutation probability, the number of candidates)
      are computed this way.  The costs, the penalty and the draws are
      rationals that are taken as given.  The fitness is given twice:
      [value] is the sum of the source in exact arithmetic, which is
      what the order comparisons of the search are stated on, and
      [value64] is the same loop with every operation rounded.
    - A [number[]] that the source mutates or shares lives in a [Store]
      and is named by its address.
    - A random draw is read from a tape: one entry for each call of
      [Math.random()].  A run that needs more draws than the tape holds
      ends in [OutOfDraws]. *)

From Stdlib Require Import QArith Qround Qabs Lqa ZArith Lia.
From Stdlib Require Import String Ascii DecimalString.
From stdpp Require Import base list sorting.

Open Scope nat_scope.

(** ** Outcomes *)

Inductive error :=
| ConfigError (msg : string)   (* [throw new Error(details)] *)
| TypeError                    (* a property of [undefined] was read *)
| OutOfDraws.                  (* the tape ended before the run did *)

Inductive result (A : Type) :=
| Ok (a : A)
| Err (e : error).
Arguments Ok {A} a.
Arguments Err {A} e.

Definition rbind {A B} (r : result A) (k : A -> result B) : result B :=
  match r with
  | Ok a => k a
  | Err e => Err e
  end.

(** ** Numbers *)

Definition Qltb (x y : Q) : bool := negb (Qle_bool y x).

(** A JavaScript number where the source can meet an infinity or NaN.
    Zero is taken as positive zero: the zeros divided by here are counts
    and sums of lengths. *)
Inductive num :=
| Fin (q : Q)
| PInf
| NInf
| NaN.

(** [2^k] for an exponent of either sign. *)
Definition Qpow2 (k : Z) : Q :=
  if (0 <=? k)%Z then inject_Z (2 ^ k) else 1 # Z.to_pos (2 ^ (- k)).

(** The nearest integer, the even one of two that are equally near. *)
Definition Qround_even (x : Q) : Z :=
  let f := Qfloor x in
  match (x - inject_Z f ?= 1 # 2)%Q with
  | Lt => f
  | Gt => (f + 1)%Z
  | Eq => if Z.even f then f else (f + 1)%Z
  end.

(** The [e] with [2^e <= a < 2^(e+1)], for a positive [a]. *)
Definition Qlog2 (a : Q) : Z :=
  let e0 := (Z.log2 (Qnum a) - Z.log2 (Zpos (Qden a)))%Z in
  if Qle_bool (Qpow2 e0) a then e0 else (e0 - 1)%Z.

(** The binary64 number nearest to [q], as every arithmetic operation of
    the source returns it for its exact result [q]: 53 significant bits,
    ties to even, the smallest exponent -1022 (below it the spacing stays
    2^-1074), an infinity from 2^1024 - 2^970 on.  The result is in
    lowest terms.  The sign of a zero is not kept. *)
Definition round64 (q : Q) : num :=
  let q := Qred q in
  if Qeq_bool q 0 then Fin 0
  else
    let a := Qabs q in
    let e := Z.max (Qlog2 a) (-1022) in
    let g := (e - 52)%Z in
    let m := Qround_even (a / Qpow2 g) in
    let r := Qred (inject_Z m * Qpow2 g) in
    if Qle_bool (Qpow2 1024) r
    then (if Qle_bool 0 q then PInf else NInf)
    else Fin (if Qle_bool 0 q then r else Qred (- r)).

(** [a / b] *)
Definition num_div (a b : num) : num :=
  match a, b with
  | NaN, _ => NaN
  | _, NaN => NaN
  | Fin x, Fin y =>
      if Qeq_bool y 0
      then (if Qeq_bool x 0 then NaN else if Qle_bool 0 x then PInf else NInf)
      else round64 (x / y)
  | Fin _, PInf => Fin 0
  | Fin _, NInf => Fin 0
  | PInf, Fin y => if Qle_bool 0 y then PInf else NInf
  | NInf, Fin y => if Qle_bool 0 y then NInf else PInf
  | _, _ => NaN
  end.

(** [a * b] *)
Definition num_mul (a b : num) : num :=
  match a, b with
  | NaN, _ => NaN
  | _, NaN => NaN
  | Fin x, Fin y => round64 (x * y)
  | Fin x, PInf | PInf, Fin x =>
      if Qeq_bool x 0 then NaN else if Qle_bool 0 x then PInf else NInf
  | Fin x, NInf | NInf, Fin x =>
      if Qeq_bool x 0 then NaN else if Qle_bool 0 x then NInf else PInf
  | PInf, PInf | NInf, NInf => PInf
  | PInf, NInf | NInf, PInf => NInf
  end.

(** [a + b] *)
Definition num_add (a b : num) : num :=
  match a, b with
  | NaN, _ => NaN
  | _, NaN => NaN
  | Fin x, Fin y => round64 (x + y)
  | PInf, NInf | NInf, PInf => NaN
  | PInf, _ | _, PInf => PInf
  | NInf, _ | _, NInf => NInf
  end.

(** [Math.floor(a)] *)
Definition num_floor (a : num) : num :=
  match a with
  | Fin x => Fin (inject_Z (Qfloor x))
  | _ => a
  end.

Definition num_lt (a b : num) : bool :=
  match a, b with
  | NaN, _ => false
  | _, NaN => false
  | Fin x, Fin y => Qltb x y
  | Fin _, PInf => true
  | NInf, Fin _ => true
  | NInf, PInf => true
  | _, _ => false
  end.

Definition Qnat (n : nat) : Q := inject_Z (Z.of_nat n).

(** Sum of a list of numbers, left to right as an accumulating loop. *)
Definition Qsum (l : list Q) : Q := foldl Qplus 0%Q l.

(** Modelled from the spec: [sci.statistics.avg], the average of a list of
    numbers (the function is not among the sources).  What it gives on
    the empty list is not settled by the specification; the properties
    below that depend on its value assume at least one cost. *)
Definition avg (l : list Q) : Q := (Qsum l / Qnat (length l))%Q.

(** ** Bit vectors *)

(** Modelled from the spec: [BitSet] of the package std.ts, a fixed-size
    indexed sequence of booleans with [get], [set], [all] and two
    constructors.  [new BitSet(n)] is all zero; [new BitSet(s.size,
    s.buffer)] is taken to give a bit vector with the bits of [s] and a
    storage of its own, as the source comments (Copy a & b, Creating new
    solution) and sections 4.1 and 4.3 of the specification (inputs are
    not mutated) say.  An index outside the vector reads as [false].  A
    write outside the vector is dropped here; what the library does
    with such a write is not settled by the specification, and
    [crossover] makes one only on parents of different sizes. *)
Module BitSet.
Abbreviation t := (list bool).
Definition create (n : nat) : t := replicate n false.
Definition copy (s : t) : t := s.
Definition size (s : t) : nat := length s.
Definition get (s : t) (i : nat) : bool := default false (s !! i).
Definition set (s : t) (i : nat) (v : bool) : t := <[i := v]> s.
Definition all (s : t) : bool := forallb id s.
Definition flip (s : t) (i : nat) : t := set s i (negb (get s i)).
End BitSet.

(** ** The store of caller-visible arrays *)

Abbreviation addr := nat.

(** [rowArrays] holds the [number[]] objects that list row indices (the
    elements of [sets]); [costArrays] holds the [number[]] objects of
    costs. *)
Record Store := mkStore {
  rowArrays : list (list nat);
  costArrays : list (list Q)
}.

(** Modelled from the spec: [std.algorithm.sort(a, 0, a.length)] of std.ts
    sorts the whole array ascending, in place. *)
Definition sort (l : list nat) : list nat := merge_sort le l.

(** ** SPProblem *)

Record SPProblem := mkSPProblem {
  rows : nat;
  sets : list addr;       (* the caller's array of sets, by reference *)
  costs : addr;           (* the caller's array of costs, by reference *)
  penalty : Q;
  Ri : list (list nat);
  averageNonZeros : num
}.

(** [get n()] *)
Definition n (p : SPProblem) : nat := length (sets p).

Definition newline : string := String "010"%char EmptyString.

Definition dec (k : nat) : string := NilZero.string_of_uint (Nat.to_uint k).

(** The message of the configuration error. *)
Definition details (nsets ncosts : nat) : string :=
  ("Lengths:" ++ newline ++ dec nsets ++ " sets and " ++ dec ncosts
   ++ " costs")%string.

(** [this.sets[i].forEach(row => this.Ri[row].push(i))] *)
Fixpoint push_rows (R : list (list nat)) (i : nat) (rs : list nat)
  : result (list (list nat)) :=
  match rs with
  | [] => Ok R
  | row :: rs' =>
      match R !! row with
      | None => Err TypeError
      | Some l => push_rows (<[row := l ++ [i]]> R) i rs'
      end
  end.

(** The second loop of [init], from index [i] on; [rest] is what remains of
    [this.sets], [total] the running [averageNonZeros]. *)
Fixpoint init_loop (heap : list (list nat)) (R : list (list nat))
    (total : nat) (i : nat) (rest : list addr)
  : result (list (list nat) * list (list nat) * nat) :=
  match rest with
  | [] => Ok (heap, R, total)
  | a :: rest' =>
      match heap !! a with
      | None => Err TypeError
      | Some arr =>
          let arr' := sort arr in
          let heap' := <[a := arr']> heap in
          rbind (push_rows R i arr') (fun R' =>
            init_loop heap' R' (total + length arr') (S i) rest')
      end
  end.

(** [init()]: returns the new row arrays, [Ri] and [averageNonZeros]. *)
Definition init (heap : list (list nat)) (rws : nat) (ss : list addr)
  : result (list (list nat) * list (list nat) * num) :=
  rbind (init_loop heap (replicate rws []) 0 0 ss) (fun '(heap', R, total) =>
    Ok (heap', R, num_div (Fin (Qnat total)) (Fin (Qnat (length ss))))).

(** [new SPProblem(rows, sets, costs, penaltyFactor)] run in store [st]:
    the problem and the store it leaves. *)
Definition SPProblem_new (st : Store) (rws : nat) (ss : list addr)
    (cs : addr) (penaltyFactor : Q) : result (SPProblem * Store) :=
  match costArrays st !! cs with
  | None => Err TypeError
  | Some cl =>
      if negb (length ss =? length cl)
      then Err (ConfigError (details (length ss) (length cl)))
      else
        let avgCost := avg cl in
        rbind (init (rowArrays st) rws ss) (fun '(heap', R, anz) =>
          Ok (mkSPProblem rws ss cs (avgCost * penaltyFactor)%Q R anz,
              mkStore heap' (costArrays st)))
  end.

(** ** Randomness *)

(** One call of [Math.random()]: the rational [dnum / (dnum + dgap + 1)],
    which ranges over the rationals of the interval [0, 1). *)
Record draw := Draw { dnum : nat; dgap : nat }.

Definition draw_val (d : draw) : Q :=
  Z.of_nat (dnum d) # Pos.of_succ_nat (dnum d + dgap d).

Definition tape := list draw.

(** A computation that reads draws: it consumes a prefix of the tape. *)
Definition M (A : Type) : Type := tape -> result (A * tape).

Definition ret {A} (a : A) : M A := fun t => Ok (a, t).

Definition bind {A B} (m : M A) (k : A -> M B) : M B :=
  fun t => match m t with
           | Ok (a, t') => k a t'
           | Err e => Err e
           end.

Definition throw {A} (e : error) : M A := fun _ => Err e.

Notation "'let*' x := m 'in' k" := (bind m (fun x => k))
  (at level 10, x pattern, k at level 200).

(** [Math.random()] *)
Definition random : M Q :=
  fun t => match t with
           | [] => Err OutOfDraws
           | d :: t' => Ok (draw_val d, t')
           end.

(** Modelled from the spec: [sci.discrete.randInt(a, b)], a uniform random
    integer of [a, b) (the function is not among the sources): the draw
    [u] gives [a + floor(u * (b - a))]. *)
Definition randInt_of (d : draw) (a b : Z) : Z :=
  (a + Qfloor (draw_val d * inject_Z (b - a)))%Z.

Definition randInt (a b : Z) : M Z :=
  fun t => match t with
           | [] => Err OutOfDraws
           | d :: t' => Ok (randInt_of d a b, t')
           end.

(** [a[k]] for a number [k] that may be the sentinel -1. *)
Definition zlookup {A} (l : list A) (k : Z) : option A :=
  if (k <? 0)%Z then None else l !! Z.to_nat k.

(** ** Strategies *)

Inductive RowSelectionStrategy := Random | Max.
Inductive ImprovementStrategy := First | Best.

(** ** Methods of SPProblem *)

Section Methods.
Variable st : Store.
Variable p : SPProblem.

(** [this.sets[i]] and [this.costs[i]], read through the store. *)
Definition set_rows (i : nat) : list nat :=
  default [] (sets p !! i ≫= fun a => rowArrays st !! a).

Definition cost_list : list Q := default [] (costArrays st !! costs p).

Definition cost (i : nat) : Q := default 0%Q (cost_list !! i).

(** The inner loop of [value]: [r] starts at -1 and is incremented for
    each selected set of the row. *)
Definition row_r (s : BitSet.t) (row : list nat) : Z :=
  foldl (fun r j => if BitSet.get s j then (r + 1)%Z else r) (-1)%Z row.

(** [value(s)] in exact arithmetic. *)
Definition value (s : BitSet.t) : Q :=
  let penalties :=
    foldl (fun acc row => acc + Qabs (inject_Z (row_r s row)) * penalty p)%Q
          0%Q (Ri p) in
  let value :=
    foldl (fun acc i => if BitSet.get s i then (acc + cost i)%Q else acc)
          0%Q (seq 0 (BitSet.size s)) in
  (value + penalties)%Q.



(** The inner loop of [validate] over the rows of one selected set;
    [None] is the early [return false]. *)
Fixpoint mark (bs : BitSet.t) (rs : list nat) : option BitSet.t :=
  match rs with
  | [] => Some bs
  | row :: rs' =>
      if BitSet.get bs row then None
      else mark (BitSet.set bs row true) rs'
  end.

Fixpoint validate_loop (s bs : BitSet.t) (idx : list nat)
  : option BitSet.t :=
  match idx with
  | [] => Some bs
  | i :: idx' =>
      if BitSet.get s i
      then match mark bs (set_rows i) with
           | None => None
           | Some bs' => validate_loop s bs' idx'
           end
      else validate_loop s bs idx'
  end.

Definition validate (s : BitSet.t) : bool :=
  match validate_loop s (BitSet.create (rows p)) (seq 0 (n p)) with
  | None => false
  | Some bs => BitSet.all bs
  end.

(** [ri]: the sets of a row that the solution selects, in row order. *)
Definition ri (s : BitSet.t) (row : list nat) : list nat :=
  List.filter (BitSet.get s) row.

Definition selectRow_max (s : BitSet.t) : list nat :=
  foldl (fun max row =>
           let r := ri s row in
           if length max <? length r then r else max)
        [] (Ri p).

Definition selectRow (s : BitSet.t) (rss : RowSelectionStrategy)
  : M (list nat) :=
  match rss with
  | Max => ret (selectRow_max s)
  | Random =>
      let* k := randInt 0 (Z.of_nat (rows p)) in
      match zlookup (Ri p) k with
      | None => throw TypeError
      | Some row => ret (ri s row)
      end
  end.

(** The loop of the [Best] strategy from position [i] of [cols] on. *)
Fixpoint best_loop (i : nat) (rest : list nat) (newS : BitSet.t)
    (bestCost : Q) (best : Z) : BitSet.t * Q * Z :=
  match rest with
  | [] => (newS, bestCost, best)
  | c :: rest' =>
      let newS1 := BitSet.flip newS c in
      let colCost := value newS1 in
      let newS2 := BitSet.flip newS1 c in
      if Qltb colCost bestCost
      then best_loop (S i) rest' newS2 colCost (Z.of_nat i)
      else best_loop (S i) rest' newS2 bestCost best
  end.

(** The loop of the [First] strategy; [Some] is the early return. *)
Fixpoint first_loop (rest : list nat) (newS : BitSet.t) (bestCost : Q)
  : option BitSet.t :=
  match rest with
  | [] => None
  | col :: rest' =>
      let newS1 := BitSet.flip newS col in
      if Qltb (value newS1) bestCost then Some newS1
      else first_loop rest' (BitSet.flip newS1 col) bestCost
  end.

(** The body of [improve] once the row has been selected. *)
Definition improve_with (s : BitSet.t) (imp : ImprovementStrategy)
    (cols : list nat) : BitSet.t :=
  let newS := BitSet.copy s in
  let bestCost := value s in
  match imp with
  | Best =>
      let '(newS', _, best) := best_loop 0 cols newS bestCost (-1)%Z in
      match zlookup cols best with
      | Some c => BitSet.flip newS' c
      | None => s
      end
  | First =>
      match first_loop cols newS bestCost with
      | Some r => r
      | None => s
      end
  end.

Definition improve (s : BitSet.t) (imp : ImprovementStrategy)
    (rss : RowSelectionStrategy) : M BitSet.t :=
  let* cols := selectRow s rss in
  ret (improve_with s imp cols).

(** The loop of [generate]; every iteration reads one draw. *)
Fixpoint generate_loop (nonZero : num) (t : tape) (s : BitSet.t) (i : Z)
  : result (BitSet.t * tape) :=
  if num_lt (Fin (inject_Z i)) nonZero
  then match t with
       | [] => Err OutOfDraws
       | d :: t' =>
           let v := Z.to_nat (randInt_of d 0 (Z.of_nat (n p))) in
           if BitSet.get s v
           then generate_loop nonZero t' s (i - 1 + 1)%Z
           else generate_loop nonZero t' (BitSet.set s v true) (i + 1)%Z
       end
  else Ok (s, t).

Definition nonZero : num :=
  num_div (Fin (Qnat (rows p))) (averageNonZeros p).

Definition generate : M BitSet.t :=
  fun t => generate_loop nonZero t (BitSet.create (n p)) 0%Z.

(** [while ((distance = randInt(0, a.size - 1)) === 0) {}] *)
Fixpoint draw_distance (size : Z) (t : tape) : result (Z * tape) :=
  match t with
  | [] => Err OutOfDraws
  | d :: t' =>
      let distance := randInt_of d 0 (size - 1) in
      if (distance =? 0)%Z then draw_distance size t'
      else Ok (distance, t')
  end.

(** The inner function of [crossover]; it reads [x] and [distance] of the
    enclosing call besides its arguments. *)
Definition inRange (x distance : Z) (i center range : Z) : bool :=
  ((x <? i)%Z && (i <? center + range)%Z)
  || ((Z.of_nat (n p) <=? x + range)%Z
      && (if (Z.of_nat (n p) =? 0)%Z then false
          else (i <=? Z.rem (center + distance) (Z.of_nat (n p)))%Z)).

(** [Math.random() < pMutation ? !bit : bit] *)
Definition mutated (pMutation : num) (bit : bool) : M bool :=
  let* u := random in
  ret (if num_lt (Fin u) pMutation then negb bit else bit).

Fixpoint crossover_loop (a b : BitSet.t) (pMutation : num)
    (x distance : Z) (idx : list nat) (ab ba : BitSet.t)
  : M (BitSet.t * BitSet.t) :=
  match idx with
  | [] => ret (ab, ba)
  | i :: idx' =>
      if inRange x distance (Z.of_nat i) x distance
      then let* v1 := mutated pMutation (BitSet.get b i) in
           let* v2 := mutated pMutation (BitSet.get a i) in
           crossover_loop a b pMutation x distance idx'
             (BitSet.set ab i v1) (BitSet.set ba i v2)
      else let* v1 := mutated pMutation (BitSet.get a i) in
           let* v2 := mutated pMutation (BitSet.get b i) in
           crossover_loop a b pMutation x distance idx'
             (BitSet.set ab i v1) (BitSet.set ba i v2)
  end.

Definition crossover (a b : BitSet.t) : M (BitSet.t * BitSet.t) :=
  let ab := BitSet.create (BitSet.size a) in
  let ba := BitSet.create (BitSet.size b) in
  let pMutation := num_div (Fin 1) (Fin (Qnat (n p))) in
  let* x := randInt 0 (Z.of_nat (BitSet.size a)) in
  let* distance := draw_distance (Z.of_nat (BitSet.size a)) in
  crossover_loop a b pMutation x distance (seq 0 (BitSet.size a)) ab ba.

End Methods.

(** ** The generic two-point crossover *)

(** The loop of [tpx]; [ab] and [ba] are the children, [a] and [b] the
    parents, which it only reads. *)
Fixpoint tpx_loop (a b : BitSet.t) (x : Z) (idx : list nat)
    (ab ba : BitSet.t) : BitSet.t * BitSet.t :=
  match idx with
  | [] => (ab, ba)
  | i :: idx' =>
      let bit := Z.to_nat (Z.rem (x + Z.of_nat i) (Z.of_nat (BitSet.size a))) in
      tpx_loop a b x idx'
        (BitSet.set ab bit (BitSet.get b bit))
        (BitSet.set ba bit (BitSet.get a bit))
  end.

(** [tpx(a, b, xFactor)].  The product [a.size * xFactor] is taken
    exactly; it is the product of the source whenever that one is not
    rounded, as for the factors 1/2 and 1. *)
Definition tpx (a b : BitSet.t) (xFactor : Q)
  : M (BitSet.t * BitSet.t) :=
  let ab := BitSet.copy a in
  let ba := BitSet.copy b in
  let* x := randInt 0 (Z.of_nat (BitSet.size a)) in
  let distance := Qceiling (Qnat (BitSet.size a) * xFactor) in
  ret (tpx_loop a b x (seq 0 (Z.to_nat distance)) ab ba).

(** The same loop when the constructor is read the other way, as handing
    out a view of the buffer it is given: [ab] and [a] are then one
    storage, and so are [ba] and [b].  It is kept for comparison only. *)
Fixpoint tpx_loop_shared (size : nat) (x : Z) (idx : list nat)
    (sa sb : BitSet.t) : BitSet.t * BitSet.t :=
  match idx with
  | [] => (sa, sb)
  | i :: idx' =>
      let bit := Z.to_nat (Z.rem (x + Z.of_nat i) (Z.of_nat size)) in
      let sa' := BitSet.set sa bit (BitSet.get sb bit) in
      let sb' := BitSet.set sb bit (BitSet.get sa' bit) in
      tpx_loop_shared size x idx' sa' sb'
  end.

(** ** The driver *)

Section Driver.
Variable st : Store.
Variable problem : SPProblem.
Variables popSize genN improvements : nat.
Variable improveS : ImprovementStrategy.
Variable rowSelectionS : RowSelectionStrategy.
Variables selRate xRate : Q.

(** [for (j < improvements) s = problem.improve(s, ...)] *)
Fixpoint improve_times (k : nat) (s : BitSet.t) : M BitSet.t :=
  match k with
  | 0 => ret s
  | S k' =>
      let* s' := improve st problem s improveS rowSelectionS in
      improve_times k' s'
  end.

(** The initialization loop with [k] members still to create. *)
Fixpoint init_population (k : nat) (population : list BitSet.t)
    (pCost : list Q) : M (list BitSet.t * list Q) :=
  match k with
  | 0 => ret (population, pCost)
  | S k' =>
      let* s := generate problem in
      let* s' := improve_times improvements s in
      init_population k' (population ++ [s'])
                      (pCost ++ [value st problem s'])
  end.

Fixpoint findBest_loop (i : nat) (rest : list BitSet.t) (k : Z)
    (kValue : num) : Z :=
  match rest with
  | [] => k
  | s :: rest' =>
      let iValue := value st problem s in
      if num_lt (Fin iValue) kValue
      then findBest_loop (S i) rest' (Z.of_nat i) (Fin iValue)
      else findBest_loop (S i) rest' k kValue
  end.

Definition findBest (population : list BitSet.t) : Z :=
  findBest_loop 0 population (-1)%Z PInf.

Fixpoint findWorst_loop (i : nat) (rest : list BitSet.t) (k : Z)
    (kValue : num) : Z :=
  match rest with
  | [] => k
  | s :: rest' =>
      let iValue := value st problem s in
      if num_lt kValue (Fin iValue)
      then findWorst_loop (S i) rest' (Z.of_nat i) (Fin iValue)
      else findWorst_loop (S i) rest' k kValue
  end.

Definition findWorst (population : list BitSet.t) : Z :=
  findWorst_loop 0 population (-1)%Z NInf.

(** [binaryTournament] on the two draws it reads. *)
Definition binaryTournament_of (population : list BitSet.t)
    (da db : draw) : result Z :=
  let a := randInt_of da 0 (Z.of_nat (length population)) in
  let b := randInt_of db 0 (Z.of_nat (length population)) in
  match zlookup population a, zlookup population b with
  | Some sa, Some sb =>
      if Qltb (value st problem sa) (value st problem sb)
      then Ok a else Ok b
  | _, _ => Err TypeError
  end.

(** The loop of [getCandidates]; every iteration reads two draws. *)
Fixpoint getCandidates_loop (population : list BitSet.t) (nc : num)
    (t : tape) (candidates : list Z) : result (list Z * tape) :=
  if num_lt (Fin (Qnat (length candidates))) nc
  then match t with
       | da :: db :: t' =>
           match binaryTournament_of population da db with
           | Err e => Err e
           | Ok candidate =>
               if bool_decide (candidate ∈ candidates)
               then getCandidates_loop population nc t' candidates
               else getCandidates_loop population nc t'
                      (candidates ++ [candidate])
           end
       | _ => Err OutOfDraws
       end
  else Ok (candidates, t).

(** The default of the parameter, [Math.floor(popSize * selRate)], is
    the only value it is called with. *)
Definition getCandidates (population : list BitSet.t) : M (list Z) :=
  fun t =>
    getCandidates_loop population
      (num_floor (num_mul (Fin (Qnat popSize)) (Fin selRate))) t [].

(** [for (const s of selection) ...], filling [newP]. *)
Fixpoint breed (population : list BitSet.t) (selection : list Z)
    (rest : list Z) (newP : list BitSet.t) : M (list BitSet.t) :=
  match rest with
  | [] => ret newP
  | s :: rest' =>
      let* u := random in
      if Qltb u xRate
      then
        let* r := randInt 0 (Z.of_nat (length selection)) in
        match zlookup selection r ≫= zlookup population,
              zlookup population s with
        | Some b, Some a =>
            let* (c1, c2) := crossover problem a b in
            breed population selection rest' (newP ++ [c1; c2])
        | _, _ => throw TypeError
        end
      else breed population selection rest' newP
  end.

(** [newP.forEach(p => ...)]: improve each child and let it take the
    place of the worst member when it is strictly better. *)
Fixpoint replace_loop (newP : list BitSet.t) (population : list BitSet.t)
    (pCost : list Q) : M (list BitSet.t * list Q) :=
  match newP with
  | [] => ret (population, pCost)
  | c :: newP' =>
      let* c' := improve_times improvements c in
      let pVal := value st problem c' in
      let worstIdx := findWorst population in
      match zlookup pCost worstIdx with
      | Some w =>
          if Qltb pVal w
          then replace_loop newP'
                 (<[Z.to_nat worstIdx := c']> population)
                 (<[Z.to_nat worstIdx := pVal]> pCost)
          else replace_loop newP' population pCost
      | None => replace_loop newP' population pCost
      end
  end.

(** The generation loop with [g] generations still to run. *)
Fixpoint generations (g : nat) (population : list BitSet.t)
    (pCost : list Q) : M (list BitSet.t * list Q) :=
  match g with
  | 0 => ret (population, pCost)
  | S g' =>
      let* selection := getCandidates population in
      let* newP := breed population selection selection [] in
      let* (population', pCost') := replace_loop newP population pCost in
      generations g' population' pCost'
  end.

(** The last part of [ssgarow].  With an empty population the source
    reads [population[-1]], which is [undefined]: it then throws in
    [improve], or returns [undefined] when [improvements] is 0; both
    are reported as [TypeError] here. *)
Definition finalize (population : list BitSet.t) : M BitSet.t :=
  match zlookup population (findBest population) with
  | Some s => improve_times improvements s
  | None => throw TypeError
  end.

Definition ssgarow : M BitSet.t :=
  let* (population, pCost) := init_population popSize [] [] in
  let* (population', pCost') := generations genN population pCost in
  finalize population'.

End Driver.

(** ** Notions used in the statements *)

(** The number of entries of [row] that satisfy [f]. *)
Definition cnt (f : nat -> bool) (row : list nat) : nat :=
  length (List.filter f row).

(** [R[r]], the entry of row [r]. *)
Definition row_at (R : list (list nat)) (r : nat) : list nat :=
  default [] (R !! r).

(** What the sets [rest], numbered from [i] on and read in [heap], add to
    the count of the entries of [Ri[r]] that satisfy [f]: each set [j]
    with [f j] adds the number of times it lists [r]. *)

Fixpoint contrib (heap : list (list nat)) (f : nat -> bool) (r i : nat)
    (rest : list addr) : nat :=
  match rest with
  | [] => 0
  | a :: rest' =>
      (if f i then count_occ Nat.eq_dec (default [] (heap !! a)) r else 0)
      + contrib heap f r (S i) rest'
  end.

Section Notions.
Variable st : Store.
Variable p : SPProblem.

(** Set [j] covers row [r]. *)
Definition covers (j r : nat) : bool := bool_decide (r ∈ set_rows st p j).

(** The number of selected sets that cover row [r]. *)
Definition cover_count (s : BitSet.t) (r : nat) : nat :=
  length (List.filter (fun j => BitSet.get s j && covers j r)
                      (seq 0 (n p))).



(** Every row is covered by exactly one selected set. *)
Definition exact_cover (s : BitSet.t) : Prop :=
  forall r, r < rows p -> cover_count s r = 1.

(** The sets are sets: no row index occurs twice in one of them. *)
Definition sets_nodup : Prop :=
  forall j, j < n p -> NoDup (set_rows st p j).
End Notions.

(** The rows met by [validate], in the order it meets them. *)
Definition visited (st : Store) (p : SPProblem) (s : BitSet.t)
    (idx : list nat) : list nat :=
  concat (map (set_rows st p) (List.filter (BitSet.get s) idx)).

(** What [bestCost] and [best] hold in the loop of the Best strategy once
    the columns [pre] of [cols] have been tried on [s]. *)
Definition best_inv (st : Store) (p : SPProblem) (s : BitSet.t)
    (cols pre : list nat) (bestCost : Q) (best : Z) : Prop :=
  (best = (-1)%Z /\ bestCost = value st p s
   /\ forall c, c ∈ pre -> (value st p s <= value st p (BitSet.flip s c))%Q)
  \/ (exists k c, best = Z.of_nat k /\ cols !! k = Some c
        /\ bestCost = value st p (BitSet.flip s c)
        /\ (value st p (BitSet.flip s c) < value st p s)%Q
        /\ forall c', c' ∈ pre ->
             (value st p (BitSet.flip s c)
              <= value st p (BitSet.flip s c'))%Q).

(** The indices that the loop of [tpx] visits for the offsets [idx]. *)
Definition tpx_window (size : nat) (x : Z) (idx : list nat) : list nat :=
  map (fun i => Z.to_nat (Z.rem (x + Z.of_nat i) (Z.of_nat size))) idx.

(** The number of bits that are set. *)
Definition selected_count (s : BitSet.t) : nat := length (List.filter id s).

(** The draw [j / size], which [randInt(0, size)] turns into [j]. *)
Definition draw_for (size j : nat) : draw := Draw j (size - 1 - j).

(** Every member of [pop] has a member of [pop'] that is at least as
    good: the best value of [pop'] is not above the best value of [pop]. *)
Definition dominates (st : Store) (p : SPProblem)
    (pop' pop : list BitSet.t) : Prop :=
  forall x, x ∈ pop ->
    exists y, y ∈ pop' /\ (value st p y <= value st p x)%Q.

(** The cache holds the value of each member. *)
Definition cached (st : Store) (p : SPProblem)
    (pop : list BitSet.t) (pCost : list Q) : Prop :=
  pCost = map (value st p) pop.



(** ** Concrete instances *)

(** The instance of section 8 of the specification: three rows, the sets
    [0], [1], [2] and [0,1,2] (the last one given unsorted), unit costs
    and penalty factor 1. *)
Module Ex.
Definition store : Store :=
  mkStore [[0]; [1]; [2]; [2; 0; 1]] [[1; 1; 1; 1]%Q].

Definition built : result (SPProblem * Store) :=
  Eval vm_compute in SPProblem_new store 3 [0; 1; 2; 3] 0 1.

Definition problem : SPProblem :=
  match built with
  | Ok (p, _) => p
  | Err _ => mkSPProblem 0 [] 0 0 [] NaN
  end.

Definition store' : Store :=
  match built with
  | Ok (_, st') => st'
  | Err _ => store
  end.

(** A run of the driver with two members and one generation reads
    these eighteen draws. *)
Definition run_tape : tape :=
  [draw_for 4 0; draw_for 4 1; draw_for 4 3; draw_for 4 2;
   draw_for 2 0; draw_for 2 1;
   Draw 1 1; draw_for 1 0; draw_for 4 1; draw_for 3 1]
  ++ replicate 8 (Draw 1 0).

(** Three rows and four sets of two rows each: the target of
    [generate] is 3/2. *)
Definition store2 : Store :=
  mkStore [[0; 1]; [1; 2]; [0; 2]; [0; 1]] [[1; 1; 1; 1]%Q].

Definition built2 : result (SPProblem * Store) :=
  Eval vm_compute in SPProblem_new store2 3 [0; 1; 2; 3] 0 1.

Definition problem2 : SPProblem :=
  match built2 with
  | Ok (p, _) => p
  | Err _ => mkSPProblem 0 [] 0 0 [] NaN
  end.

Definition target2 : Q :=
  Eval vm_compute in
    match nonZero problem2 with
    | Fin q => q
    | _ => 0%Q
    end.

(** Five rows and five singleton sets, for [crossover] on vectors of
    five bits. *)
Definition store5 : Store :=
  mkStore [[0]; [1]; [2]; [3]; [4]] [[1; 1; 1; 1; 1]%Q].

Definition built5 : result (SPProblem * Store) :=
  Eval vm_compute in SPProblem_new store5 5 [0; 1; 2; 3; 4] 0 1.

Definition problem5 : SPProblem :=
  match built5 with
  | Ok (p, _) => p
  | Err _ => mkSPProblem 0 [] 0 0 [] NaN
  end.

(** The draws of one [crossover]: start 1, length 2, and ten draws of
    1/2, none of which is below the mutation probability 1/5. *)
Definition cross_tape : tape :=
  [draw_for 5 1; draw_for 4 2] ++ replicate 10 (Draw 1 0).
End Ex.

(** ** The static helpers of SPProblem and the default comparison *)

(** [SPProblem.stringSol(s)]: the bits of [s] as a string of 0 and 1,
    built left to right. *)
Definition stringSol (s : BitSet.t) : string :=
  foldl (fun str i =>
           (str ++ (if BitSet.get s i then "1" else "0"))%string)
        EmptyString (seq 0 (BitSet.size s)).

(** The loop of [equalSolution]; [false] is the early return. *)
Fixpoint equalSolution_loop (a b : BitSet.t) (idx : list nat) : bool :=
  match idx with
  | [] => true
  | i :: idx' =>
      if negb (Bool.eqb (BitSet.get a i) (BitSet.get b i)) then false
      else equalSolution_loop a b idx'
  end.

(** [SPProblem.equalSolution(a, b)]: it runs over the indices of [a]. *)
Definition equalSolution (a b : BitSet.t) : bool :=
  equalSolution_loop a b (seq 0 (BitSet.size a)).

(** [NPProblem.compare(a, b)], for a problem whose solutions are of type
    [T] and whose [value] is the function given. *)
Module NPProblem.
Definition compare {T : Type} (value : T -> Q) (a b : T) : Z :=
  let aV := value a in
  let bV := value b in
  if Qltb aV bV then 1%Z
  else if Qltb bV aV then (-1)%Z
  else 0%Z.
End NPProblem.

(** ** Further notions used in the statements *)

(** The string of 0 and 1 that spells a list of bits. *)
Fixpoint bits_string (s : list bool) : string :=
  match s with
  | [] => EmptyString
  | b :: s' => String (if b then "1"%char else "0"%char) (bits_string s')
  end.

(** No draw of the tape is below the mutation probability. *)
Definition quiet (pMutation : num) (t : tape) : Prop :=
  Forall (fun d => num_lt (Fin (draw_val d)) pMutation = false) t.

(** The total number of entries of a list of rows. *)
Definition total_entries (R : list (list nat)) : nat :=
  sum_list (map length R).



(** ** Further instances *)

(** One set of one row on a problem of three rows: the target of
    [generate] is 3, above the single set. *)
Module ExMore.
Definition one_store : Store := mkStore [[0]] [[1]%Q].

Definition one_built : result (SPProblem * Store) :=
  Eval vm_compute in SPProblem_new one_store 3 [0] 0 1.

Definition one_problem : SPProblem :=
  match one_built with
  | Ok (p, _) => p
  | Err _ => mkSPProblem 0 [] 0 0 [] NaN
  end.

(** Two rows and two sets, the first of which lists row 0 twice. *)
Definition dup_store : Store := mkStore [[0; 0]; [1]] [[1; 1]%Q].

Definition dup_built : result (SPProblem * Store) :=
  Eval vm_compute in SPProblem_new dup_store 2 [0; 1] 0 1.

Definition dup_problem : SPProblem :=
  match dup_built with
  | Ok (p, _) => p
  | Err _ => mkSPProblem 0 [] 0 0 [] NaN
  end.

Definition dup_store' : Store :=
  match dup_built with
  | Ok (_, st') => st'
  | Err _ => dup_store
  end.






(** Seventeen rows in seven sets that partition them: in exact
    arithmetic the target of [generate] would be 7. *)
Definition seven_store : Store :=
  mkStore [[0; 1; 2]; [3; 4; 5]; [6; 7; 8]; [9; 10]; [11; 12]; [13; 14];
           [15; 16]]
          [[1; 1; 1; 1; 1; 1; 1]%Q].

Definition seven_built : result (SPProblem * Store) :=
  Eval vm_compute in SPProblem_new seven_store 17 [0; 1; 2; 3; 4; 5; 6] 0 1.

Definition seven_problem : SPProblem :=
  match seven_built with
  | Ok (p, _) => p
  | Err _ => mkSPProblem 0 [] 0 0 [] NaN
  end.
End ExMore.

(** * Properties *)

(** ** Numbers *)

Lemma Qltb_lt (x y : Q) : Qltb x y = true <-> (x < y)%Q.
Proof.
  unfold Qltb. rewrite negb_true_iff.
  destruct (Qle_bool y x) eqn:E.
  - apply Qle_bool_iff in E. split; [discriminate | intros H; lra].
  - split; [intros _ | reflexivity].
    destruct (Qlt_le_dec x y) as [H|H]; [exact H|].
    apply Qle_bool_iff in H. congruence.
Qed.

Lemma Qltb_ge (x y : Q) : Qltb x y = false <-> (y <= x)%Q.
Proof.
  destruct (Qltb x y) eqn:E.
  - apply Qltb_lt in E. split; [discriminate | intros H; lra].
  - split; [intros _ | reflexivity].
    destruct (Qlt_le_dec x y) as [H|H]; [|exact H].
    apply Qltb_lt in H. congruence.
Qed.

(** ** Rounding to binary64 *)

Lemma Qred_inject_Z (q : Q) (z : Z) : (q == inject_Z z)%Q -> Qred q = inject_Z z.
Proof.
  intros H. rewrite (Qred_complete _ _ H). unfold Qred, inject_Z.
  cbn [Qnum Qden].
  pose proof (Z.ggcd_gcd z 1) as Hg.
  pose proof (Z.ggcd_correct_divisors z 1) as Hd.
  destruct (Z.ggcd z 1) as [g [aa bb]]. simpl in *.
  rewrite Z.gcd_1_r in Hg. subst g. destruct Hd as [Ha Hb].
  assert (aa = z) as -> by lia. assert (bb = 1%Z) as -> by lia. done.
Qed.

Lemma Qround_even_int (x : Q) (k : Z) :
  (x == inject_Z k)%Q -> Qround_even x = k.
Proof.
  intros H. unfold Qround_even.
  assert (Hf : Qfloor x = k) by (rewrite (Qfloor_comp _ _ H); apply Qfloor_Z).
  rewrite Hf.
  assert (Hc : (x - inject_Z k ?= 1 # 2)%Q = Lt).
  { apply (proj1 (Qlt_alt _ _)). rewrite H. unfold Qminus. rewrite Qplus_opp_r. reflexivity. }
  by rewrite Hc.
Qed.

Lemma Qpow2_nonneg (k : Z) : (0 <= k)%Z -> Qpow2 k = inject_Z (2 ^ k).
Proof. intros H. unfold Qpow2. apply Z.leb_le in H. by rewrite H. Qed.

Lemma Qpow2_inv (k : Z) :
  (k <= 0)%Z -> (Qpow2 k * inject_Z (2 ^ (- k)) == 1)%Q.
Proof.
  intros H. destruct (decide (k = 0%Z)) as [->|Hk]; [reflexivity|].
  unfold Qpow2. assert (H' : (0 <=? k)%Z = false) by (apply Z.leb_gt; lia).
  rewrite H'.
  assert (0 < 2 ^ (- k))%Z by (apply Z.pow_pos_nonneg; lia).
  unfold Qeq, Qmult, inject_Z. cbn [Qnum Qden].
  rewrite Pos.mul_1_r, Z2Pos.id by done. lia.
Qed.

(** Integers up to 2^53 in size are binary64 numbers: rounding gives
    them back. *)
Lemma round64_int (q : Q) (z : Z) :
  (q == inject_Z z)%Q -> (Z.abs z <= 2 ^ 53)%Z ->
  round64 q = Fin (inject_Z z).
Proof.
  intros Hq Hz. unfold round64. rewrite (Qred_inject_Z q z Hq). cbv zeta.
  destruct (decide (z = 0%Z)) as [->|Hnz]; [done|].
  assert (E0 : Qeq_bool (inject_Z z) 0 = false).
  { apply not_true_iff_false. intros E. apply Qeq_bool_iff in E.
    unfold Qeq in E. simpl in E. lia. }
  rewrite E0.
  change (Qabs (inject_Z z)) with (inject_Z (Z.abs z)).
  set (a := Z.abs z) in *. assert (Ha : (0 < a)%Z) by lia.
  pose proof (Z.log2_spec a Ha) as [Hl1 Hl2].
  pose proof (Z.log2_nonneg a) as Hl0.
  assert (Hl53 : (Z.log2 a <= 53)%Z).
  { destruct (Z.le_gt_cases (Z.log2 a) 53) as [|Hgt]; [done|].
    assert (2 ^ 54 <= 2 ^ Z.log2 a)%Z by (apply Z.pow_le_mono_r; lia).
    assert (2 ^ 53 < 2 ^ 54)%Z by (apply Z.pow_lt_mono_r; lia). lia. }
  assert (El : Qlog2 (inject_Z a) = Z.log2 a).
  { unfold Qlog2. change (Qnum (inject_Z a)) with a.
    change (Z.log2 (Z.pos (Qden (inject_Z a)))) with 0%Z.
    rewrite Z.sub_0_r, (Qpow2_nonneg _ Hl0).
    assert (E : Qle_bool (inject_Z (2 ^ Z.log2 a)) (inject_Z a) = true).
    { apply Qle_bool_iff. rewrite <- Zle_Qle. done. }
    by rewrite E. }
  rewrite El, Z.max_l by lia.
  set (g := (Z.log2 a - 52)%Z).
  assert (Hm : exists k, (inject_Z a / Qpow2 g == inject_Z k)%Q
                         /\ (inject_Z k * Qpow2 g == inject_Z a)%Q).
  { destruct (Z.le_gt_cases g 0) as [Hg|Hg].
    - exists (a * 2 ^ (- g))%Z.
      pose proof (Qpow2_inv g Hg) as Hi.
      assert (Hne : ~ (Qpow2 g == 0)%Q).
      { intros E. rewrite E in Hi. lra. }
      rewrite inject_Z_mult.
      set (P := inject_Z (2 ^ (- g))) in *. set (A := inject_Z a).
      split.
      + transitivity (A * (Qpow2 g * P) / Qpow2 g)%Q;
          [rewrite Hi; field; done|field; done].
      + transitivity (A * (Qpow2 g * P))%Q; [ring|rewrite Hi; ring].
    - assert (g = 1%Z) as Hg1 by lia. rewrite Hg1.
      assert (a = (2 ^ 53)%Z) as ->.
      { assert (Z.log2 a = 53%Z) as E by lia. rewrite E in Hl1. lia. }
      exists (2 ^ 52)%Z. split; vm_compute; reflexivity. }
  destruct Hm as (k & Hk1 & Hk2).
  rewrite (Qround_even_int _ _ Hk1).
  rewrite (Qred_inject_Z _ a Hk2).
  assert (Eo : Qle_bool (Qpow2 1024) (inject_Z a) = false).
  { apply not_true_iff_false. intros E. apply Qle_bool_iff in E.
    rewrite Qpow2_nonneg in E by lia. rewrite <- Zle_Qle in E.
    assert (2 ^ 53 < 2 ^ 1024)%Z by (apply Z.pow_lt_mono_r; lia). lia. }
  rewrite Eo.
  destruct (Qle_bool 0 (inject_Z z)) eqn:Es.
  - apply Qle_bool_iff in Es. change 0%Q with (inject_Z 0) in Es.
    rewrite <- Zle_Qle in Es. unfold a. by rewrite Z.abs_eq.
  - f_equal. apply Qred_inject_Z.
    assert (Hneg : (z < 0)%Z).
    { destruct (Z.lt_ge_cases z 0) as [|Hge]; [done|].
      assert (Qle_bool 0 (inject_Z z) = true); [|congruence].
      apply Qle_bool_iff. change 0%Q with (inject_Z 0).
      by rewrite <- Zle_Qle. }
    unfold a. rewrite Z.abs_neq by lia. rewrite inject_Z_opp. ring.
Qed.

(** The arithmetic on numbers whose doubles are known: 0.1 is
    3602879701896397 / 2^55; 17 / (34 / 14) and 100 * 0.07 are
    7 + 2^-50; 100 * 0.29 is below 29; 10 * 0.1 is 1; 1 + 2^53 + 1 is
    2^53; 2^53 + 3 is rounded to the even neighbour 2^53 + 4;
    2^1023 + 2^1023 is Infinity, as is everything from 2^1024 - 2^970
    on, below which the largest double 2^1024 - 2^971 is returned; half
    of the smallest positive double 2^-1074 is rounded to 0 and three
    halves of it to 2^-1073. *)
Example round64_on_known_doubles :
  round64 (1 # 10) = Fin (3602879701896397 # 36028797018963968)
  /\ num_div (Fin 17) (num_div (Fin 34) (Fin 14))
     = Fin (7881299347898369 # 1125899906842624)
  /\ num_mul (Fin 100) (round64 (7 # 100))
     = Fin (7881299347898369 # 1125899906842624)
  /\ num_floor (num_mul (Fin 100) (round64 (29 # 100))) = Fin 28
  /\ num_mul (Fin 10) (round64 (1 # 10)) = Fin 1
  /\ num_add (num_add (Fin 1) (Fin (inject_Z (2 ^ 53)))) (Fin 1)
     = Fin (inject_Z (2 ^ 53))
  /\ round64 (inject_Z (2 ^ 53 + 3)) = Fin (inject_Z (2 ^ 53 + 4))
  /\ num_add (Fin (inject_Z (2 ^ 1023))) (Fin (inject_Z (2 ^ 1023))) = PInf
  /\ round64 (inject_Z (2 ^ 1024 - 2 ^ 970)) = PInf
  /\ round64 (inject_Z (2 ^ 1024 - 2 ^ 970 - 1))
     = Fin (inject_Z (2 ^ 1024 - 2 ^ 971))
  /\ round64 (1 # Z.to_pos (2 ^ 1075)) = Fin 0
  /\ round64 (3 # Z.to_pos (2 ^ 1075)) = Fin (1 # Z.to_pos (2 ^ 1073)).
Proof. vm_compute. repeat split; reflexivity. Qed.

(** ** Sums *)










(** ** Bit vectors *)

Lemma get_set_eq (s : BitSet.t) i v :
  i < BitSet.size s -> BitSet.get (BitSet.set s i v) i = v.
Proof.
  intros H. unfold BitSet.get, BitSet.set.
  by rewrite list_lookup_insert_eq.
Qed.

Lemma get_set_ne (s : BitSet.t) i j v :
  i <> j -> BitSet.get (BitSet.set s i v) j = BitSet.get s j.
Proof.
  intros H. unfold BitSet.get, BitSet.set.
  by rewrite list_lookup_insert_ne.
Qed.

Lemma size_set (s : BitSet.t) i v : BitSet.size (BitSet.set s i v) = BitSet.size s.
Proof. apply length_insert. Qed.

Lemma size_flip (s : BitSet.t) i : BitSet.size (BitSet.flip s i) = BitSet.size s.
Proof. apply size_set. Qed.

Lemma get_create k i : BitSet.get (BitSet.create k) i = false.
Proof.
  unfold BitSet.get, BitSet.create.
  destruct (replicate k false !! i) eqn:E; [|done].
  by apply lookup_replicate in E as [-> _].
Qed.

Lemma size_create k : BitSet.size (BitSet.create k) = k.
Proof. apply length_replicate. Qed.

Lemma flip_flip (s : BitSet.t) i : BitSet.flip (BitSet.flip s i) i = s.
Proof.
  unfold BitSet.flip.
  destruct (decide (i < BitSet.size s)) as [H|H].
  - rewrite get_set_eq by done. rewrite negb_involutive.
    unfold BitSet.set, BitSet.get. rewrite list_insert_insert_eq.
    apply list_insert_id. unfold BitSet.size in H.
    destruct (lookup_lt_is_Some_2 s i H) as [b Hb]. by rewrite Hb.
  - unfold BitSet.set. rewrite !list_insert_ge; try done.
    + unfold BitSet.size in H. lia.
    + rewrite list_insert_ge; unfold BitSet.size in H; lia.
Qed.

Lemma all_true (s : BitSet.t) :
  BitSet.all s = true <-> forall i, i < BitSet.size s -> BitSet.get s i = true.
Proof.
  unfold BitSet.all, BitSet.get, BitSet.size.
  induction s as [|b s IH]; simpl.
  - split; [intros _ i Hi; lia | done].
  - rewrite andb_true_iff, IH. split.
    + intros [Hb Hs] [|i] Hi; simpl; [by destruct b | apply Hs; lia].
    + intros H. split.
      * by specialize (H 0 ltac:(lia)).
      * intros i Hi. apply (H (S i)). lia.
Qed.

(** ** Construction *)

Lemma sort_perm (l : list nat) : sort l ≡ₚ l.
Proof. apply merge_sort_Permutation. Qed.

Lemma sort_sorted (l : list nat) : Sorted le (sort l).
Proof. apply (Sorted_merge_sort le). Qed.

Lemma sort_idem (l : list nat) : sort (sort l) = sort l.
Proof.
  apply (Sorted_unique le); [apply sort_sorted | apply sort_sorted |].
  apply sort_perm.
Qed.

Lemma row_at_insert_eq (R : list (list nat)) r l :
  r < length R -> row_at (<[r := l]> R) r = l.
Proof. intros H. unfold row_at. by rewrite list_lookup_insert_eq. Qed.

Lemma row_at_insert_ne (R : list (list nat)) r r' l :
  r <> r' -> row_at (<[r := l]> R) r' = row_at R r'.
Proof. intros H. unfold row_at. by rewrite list_lookup_insert_ne. Qed.

Lemma cnt_app f (l1 l2 : list nat) : cnt f (l1 ++ l2) = cnt f l1 + cnt f l2.
Proof. unfold cnt. by rewrite List.filter_app, length_app. Qed.

Lemma push_rows_ok R i rs R' :
  push_rows R i rs = Ok R' ->
  Forall (fun r => r < length R) rs /\ length R' = length R.
Proof.
  revert R. induction rs as [|row rs IH]; intros R H; simpl in H.
  - by inversion H.
  - destruct (R !! row) as [l|] eqn:E; [|discriminate].
    apply IH in H as [H1 H2]. rewrite length_insert in H1, H2.
    split; [|done]. constructor; [|done]. by eapply lookup_lt_Some.
Qed.


Lemma push_rows_cnt R i rs R' f r :
  push_rows R i rs = Ok R' ->
  cnt f (row_at R' r)
  = cnt f (row_at R r) + (if f i : bool then count_occ Nat.eq_dec rs r else 0).
Proof.
  revert R. induction rs as [|row rs IH]; intros R H; simpl in H.
  - inversion H; subst. destruct (f i); simpl; lia.
  - destruct (R !! row) as [l|] eqn:E; [|discriminate].
    rewrite (IH _ H). simpl.
    assert (Hlt : row < length R) by by eapply lookup_lt_Some.
    destruct (Nat.eq_dec row r) as [->|Hne].
    + rewrite row_at_insert_eq by done. rewrite cnt_app.
      unfold row_at. rewrite E. unfold cnt. simpl.
      destruct (Nat.eq_dec r r); [|done]. destruct (f i); simpl; lia.
    + rewrite row_at_insert_ne by done.
      destruct (Nat.eq_dec row r); [done|]. destruct (f i); lia.
Qed.

Lemma init_loop_heap heap R total i rest heap' R' total' :
  init_loop heap R total i rest = Ok (heap', R', total') ->
  (forall a, a ∈ rest ->
     exists arr, heap !! a = Some arr /\ heap' !! a = Some (sort arr))
  /\ (forall a, a ∉ rest -> heap' !! a = heap !! a)
  /\ length R' = length R.
Proof.
  revert heap R total i. induction rest as [|a rest IH];
    intros heap R total i H; simpl in H.
  - inversion H; subst. split; [|done]. intros a Ha. by apply elem_of_nil in Ha.
  - destruct (heap !! a) as [arr|] eqn:E; [|discriminate].
    destruct (push_rows R i (sort arr)) as [R1|] eqn:EP; [|discriminate].
    simpl in H. apply IH in H as (Hin & Hout & Hlen).
    apply push_rows_ok in EP as [_ EP].
    assert (Ha : heap' !! a = Some (sort arr)).
    { destruct (decide (a ∈ rest)) as [Hm|Hm].
      - destruct (Hin a Hm) as (arr1 & H1 & H2).
        rewrite list_lookup_insert_eq in H1 by by eapply lookup_lt_Some.
        inversion H1; subst. by rewrite sort_idem in H2.
      - rewrite (Hout a Hm).
        apply list_lookup_insert_eq. by eapply lookup_lt_Some. }
    split; [|split; [|lia]].
    + intros b Hb. destruct (decide (b = a)) as [->|Hne]; [by eauto|].
      apply elem_of_cons in Hb as [?|Hb]; [done|].
      destruct (Hin b Hb) as (arr1 & H1 & H2).
      rewrite list_lookup_insert_ne in H1 by done. by eauto.
    + intros b Hb. apply not_elem_of_cons in Hb as [Hne Hb].
      rewrite (Hout b Hb). by apply list_lookup_insert_ne.
Qed.


Lemma SPProblem_new_inv st rws ss cs pf p st' :
  SPProblem_new st rws ss cs pf = Ok (p, st') ->
  exists cl total,
    costArrays st !! cs = Some cl /\ length ss = length cl
    /\ init_loop (rowArrays st) (replicate rws []) 0 0 ss
       = Ok (rowArrays st', Ri p, total)
    /\ p = mkSPProblem rws ss cs (avg cl * pf)%Q (Ri p)
             (num_div (Fin (Qnat total)) (Fin (Qnat (length ss))))
    /\ costArrays st' = costArrays st.
Proof.
  unfold SPProblem_new, init. intros H.
  destruct (costArrays st !! cs) as [cl|] eqn:Ec; [|discriminate].
  destruct (length ss =? length cl) eqn:El; simpl in H; [|discriminate].
  apply Nat.eqb_eq in El.
  destruct (init_loop _ _ _ _ _) as [[[heap' R] total]|] eqn:Ei;
    simpl in H; [|discriminate].
  inversion H; subst; simpl. by exists cl, total.
Qed.

Lemma push_rows_err R i rs e : push_rows R i rs = Err e -> e = TypeError.
Proof.
  revert R. induction rs as [|row rs IH]; intros R; simpl; [discriminate|].
  destruct (R !! row); [apply IH | congruence].
Qed.

Lemma init_loop_err heap R total i rest e :
  init_loop heap R total i rest = Err e -> e = TypeError.
Proof.
  revert heap R total i. induction rest as [|a rest IH];
    intros heap R total i; simpl; [discriminate|].
  destruct (heap !! a) as [arr|]; [|congruence].
  destruct (push_rows R i (sort arr)) as [R1|e1] eqn:Ep; simpl.
  - apply IH.
  - apply push_rows_err in Ep. congruence.
Qed.

(** C10: a successful construction leaves every array of [sets] sorted
    ascending in the caller's store (a sorted rearrangement of what it
    held), touches no other array of row indices and no array of costs,
    and keeps [rows], [sets] and [costs] as they were given. *)
Theorem SPProblem_new_sorts_sets_in_place st rws ss cs pf p st' :
  SPProblem_new st rws ss cs pf = Ok (p, st') ->
  (forall a, a ∈ ss ->
     exists arr, rowArrays st !! a = Some arr
                 /\ rowArrays st' !! a = Some (sort arr)
                 /\ Sorted le (sort arr) /\ sort arr ≡ₚ arr)
  /\ (forall a, a ∉ ss -> rowArrays st' !! a = rowArrays st !! a)
  /\ costArrays st' = costArrays st
  /\ rows p = rws /\ sets p = ss /\ costs p = cs.
Proof.
  intros H. apply SPProblem_new_inv in H as (cl & total & Ec & El & Ei & Ep & Hc).
  apply init_loop_heap in Ei as (Hin & Hout & _).
  split; [|split; [exact Hout|split; [exact Hc|]]].
  - intros a Ha. destruct (Hin a Ha) as (arr & H1 & H2).
    exists arr. auto using sort_sorted, sort_perm.
  - rewrite Ep. by simpl.
Qed.

(** ** The transpose [Ri] *)

Lemma init_loop_count_at heap R total i rest heap' R' total' a r :
  init_loop heap R total i rest = Ok (heap', R', total') ->
  count_occ Nat.eq_dec (default [] (heap' !! a)) r
  = count_occ Nat.eq_dec (default [] (heap !! a)) r.
Proof.
  intros H. apply init_loop_heap in H as (Hin & Hout & _).
  destruct (decide (a ∈ rest)) as [Hm|Hm].
  - destruct (Hin a Hm) as (arr & E1 & E2). rewrite E1, E2. simpl.
    apply Permutation_count_occ, sort_perm.
  - by rewrite (Hout a Hm).
Qed.

Lemma init_loop_cnt heap R total i rest heap' R' total' f r :
  init_loop heap R total i rest = Ok (heap', R', total') ->
  cnt f (row_at R' r) = cnt f (row_at R r) + contrib heap' f r i rest.
Proof.
  revert heap R total i. induction rest as [|a rest IH];
    intros heap R total i H; simpl in H.
  - inversion H; subst. simpl. lia.
  - destruct (heap !! a) as [arr|] eqn:E; [|discriminate].
    destruct (push_rows R i (sort arr)) as [R1|] eqn:EP; [|discriminate].
    simpl in H. rewrite (IH _ _ _ _ H). rewrite (push_rows_cnt _ _ _ _ f r EP).
    simpl. rewrite (init_loop_count_at _ _ _ _ _ _ _ _ a r H).
    rewrite list_lookup_insert_eq by by eapply lookup_lt_Some.
    simpl. lia.
Qed.

Lemma count_occ_nodup (l : list nat) (r : nat) :
  NoDup l ->
  count_occ Nat.eq_dec l r = if bool_decide (r ∈ l) then 1 else 0.
Proof.
  intros H. apply NoDup_ListNoDup in H.
  case_bool_decide as Hr.
  - apply list_elem_of_In in Hr.
    by apply (proj1 (NoDup_count_occ' Nat.eq_dec l) H).
  - apply count_occ_not_In. by rewrite <- list_elem_of_In.
Qed.


Lemma init_loop_rows_lt heap R total i rest heap' R' total' a r :
  init_loop heap R total i rest = Ok (heap', R', total') ->
  a ∈ rest -> r ∈ default [] (heap' !! a) -> r < length R.
Proof.
  revert heap R total i. induction rest as [|b l IH];
    intros heap R total i Ei Ha Hr; [by apply elem_of_nil in Ha|].
  simpl in Ei.
  destruct (heap !! b) as [arr|] eqn:E; [|discriminate].
  destruct (push_rows R i (sort arr)) as [R1|] eqn:EP; [|discriminate].
  simpl in Ei. pose proof (push_rows_ok _ _ _ _ EP) as [Hall HR1].
  destruct (decide (a ∈ l)) as [Hm|Hm].
  - rewrite <- HR1. by eapply IH.
  - apply elem_of_cons in Ha as [->|?]; [|done].
    apply init_loop_heap in Ei as (_ & Hout & _).
    rewrite (Hout b Hm) in Hr.
    rewrite list_lookup_insert_eq in Hr by by eapply lookup_lt_Some.
    simpl in Hr. rewrite Forall_forall in Hall. by apply Hall.
Qed.


Section Value.
Variables (st st' : Store) (rws : nat) (ss : list addr) (cs : addr).
Variables (pf : Q) (p : SPProblem).
Hypothesis Hnew : SPProblem_new st rws ss cs pf = Ok (p, st').

Lemma new_rows : rows p = rws.
Proof.
  destruct (SPProblem_new_inv _ _ _ _ _ _ _ Hnew)
    as (cl & total & _ & _ & _ & Ep & _).
  rewrite Ep. done.
Qed.

Lemma new_Ri_length : length (Ri p) = rows p.
Proof.
  rewrite new_rows.
  apply SPProblem_new_inv in Hnew as (cl & total & _ & _ & Ei & _).
  apply init_loop_heap in Ei as (_ & _ & ->). apply length_replicate.
Qed.

Lemma new_set_rows_lt j r :
  r ∈ set_rows st' p j -> r < rows p.
Proof.
  rewrite <- new_Ri_length.
  destruct (SPProblem_new_inv _ _ _ _ _ _ _ Hnew)
    as (cl & total & _ & _ & Ei & Ep & _).
  assert (Hss : sets p = ss) by (rewrite Ep; done).
  unfold set_rows. rewrite Hss.
  destruct (ss !! j) as [a|] eqn:Ej; simpl; [|by intros ?%elem_of_nil].
  intros Hr. apply list_elem_of_lookup_2 in Ej.
  pose proof (init_loop_rows_lt _ _ _ _ _ _ _ _ a r Ei Ej Hr) as Hlt.
  apply init_loop_heap in Ei as (_ & _ & ->). done.
Qed.

End Value.

(** ** Fitness *)





(** ** The fitness in binary64 *)









(** ** Feasibility *)

Lemma mark_spec (rs : list nat) : forall (bs : BitSet.t) (M : list nat),
  Forall (fun r => r < BitSet.size bs) rs ->
  (forall r, BitSet.get bs r = true <-> r ∈ M) ->
  NoDup M ->
  match mark bs rs with
  | Some bs' => NoDup (M ++ rs) /\ BitSet.size bs' = BitSet.size bs
                /\ (forall r, BitSet.get bs' r = true <-> r ∈ M ++ rs)
  | None => ~ NoDup (M ++ rs)
  end.
Proof.
  induction rs as [|row rs IH]; intros bs M Hlt Hbs HM; simpl.
  - rewrite app_nil_r. by auto.
  - inversion Hlt as [|? ? Hrow Hrs]; subst.
    destruct (BitSet.get bs row) eqn:Eg.
    + intros Hnd. apply NoDup_app in Hnd as (_ & Hd & _).
      apply (Hd row); [by apply Hbs | by left].
    + assert (HnM : row ∉ M).
      { intros Hin. apply Hbs in Hin. congruence. }
      specialize (IH (BitSet.set bs row true) (M ++ [row])).
      rewrite size_set in IH. rewrite <- app_assoc in IH. simpl in IH.
      apply IH; [done| |].
      * intros r. rewrite elem_of_app, list_elem_of_singleton.
        destruct (decide (row = r)) as [->|Hne].
        -- rewrite get_set_eq by done. split; [by right | done].
        -- rewrite get_set_ne by done. rewrite Hbs.
           split; [by auto|]. intros [?|?]; [done|congruence].
      * apply NoDup_app. split; [done|]. split; [|apply NoDup_singleton].
        intros x Hx ->%list_elem_of_singleton. done.
Qed.

Lemma validate_loop_spec st p (s : BitSet.t) (idx : list nat) :
  forall (bs : BitSet.t) (M : list nat),
  (forall i, i ∈ idx -> Forall (fun r => r < BitSet.size bs) (set_rows st p i)) ->
  (forall r, BitSet.get bs r = true <-> r ∈ M) ->
  NoDup M ->
  match validate_loop st p s bs idx with
  | Some bs' => NoDup (M ++ visited st p s idx)
                /\ BitSet.size bs' = BitSet.size bs
                /\ (forall r, BitSet.get bs' r = true
                              <-> r ∈ M ++ visited st p s idx)
  | None => ~ NoDup (M ++ visited st p s idx)
  end.
Proof.
  unfold visited.
  induction idx as [|i idx IH]; intros bs M Hlt Hbs HM; simpl.
  - rewrite app_nil_r. by auto.
  - destruct (BitSet.get s i) eqn:Es; simpl.
    + pose proof (mark_spec (set_rows st p i) bs M
                    (Hlt i ltac:(by left)) Hbs HM) as Hm.
      destruct (mark bs (set_rows st p i)) as [bs1|].
      * destruct Hm as (Hnd1 & Hsz & Hbs1).
        specialize (IH bs1 (M ++ set_rows st p i)).
        rewrite Hsz in IH. rewrite <- app_assoc in IH.
        apply IH; [|done|done].
        intros j Hj. apply Hlt. by right.
      * intros Hnd. apply Hm. rewrite app_assoc in Hnd.
        by apply NoDup_app in Hnd as (? & _).
    + apply IH; [|done|done]. intros j Hj. apply Hlt. by right.
Qed.

Lemma count_occ_visited st p (s : BitSet.t) (idx : list nat) r :
  (forall j, j ∈ idx -> NoDup (set_rows st p j)) ->
  count_occ Nat.eq_dec (visited st p s idx) r
  = length (List.filter (fun j => BitSet.get s j && covers st p j r) idx).
Proof.
  unfold visited. induction idx as [|j idx IH]; intros Hnd; simpl; [done|].
  assert (IH' := IH (fun k Hk => Hnd k ltac:(by right))).
  destruct (BitSet.get s j); simpl; [|done].
  rewrite count_occ_app, IH'.
  rewrite count_occ_nodup by (apply Hnd; by left).
  unfold covers. case_bool_decide; simpl; lia.
Qed.

Lemma once_each_iff (V : list nat) (R : nat) :
  Forall (fun r => r < R) V ->
  (NoDup V /\ forall r, r < R -> r ∈ V)
  <-> (forall r, r < R -> count_occ Nat.eq_dec V r = 1).
Proof.
  intros Hlt. split.
  - intros [Hnd Hall] r Hr.
    apply NoDup_ListNoDup in Hnd.
    apply (proj1 (NoDup_count_occ' Nat.eq_dec V) Hnd).
    apply list_elem_of_In. by apply Hall.
  - intros H. split.
    + apply NoDup_ListNoDup, (NoDup_count_occ Nat.eq_dec). intros x.
      destruct (decide (x < R)) as [Hx|Hx]; [rewrite H; lia|].
      rewrite (proj1 (count_occ_not_In Nat.eq_dec V x)); [lia|].
      intros Hin. apply list_elem_of_In in Hin.
      rewrite Forall_forall in Hlt. apply Hlt in Hin. lia.
    + intros r Hr. apply list_elem_of_In, (count_occ_In Nat.eq_dec).
      rewrite H by done. lia.
Qed.

(** C2 (amended): for a constructed problem whose sets hold no row twice
    and a solution of size n, [validate] returns true exactly when every
    row below [rows] is covered by exactly one selected set. *)
Theorem validate_iff_exact_cover st st' rws ss cs pf p (s : BitSet.t) :
  SPProblem_new st rws ss cs pf = Ok (p, st') ->
  sets_nodup st' p ->
  BitSet.size s = n p ->
  validate st' p s = true <-> exact_cover st' p s.
Proof.
  intros Hnew Hnd Hsize.
  assert (HV : Forall (fun r => r < rows p) (visited st' p s (seq 0 (n p)))).
  { unfold visited. apply Forall_forall. intros r Hr.
    apply list_elem_of_In, in_concat in Hr as (l & Hl & Hr).
    apply in_map_iff in Hl as (j & <- & _).
    apply list_elem_of_In in Hr. by eapply new_set_rows_lt. }
  assert (Hcount : forall r, count_occ Nat.eq_dec (visited st' p s (seq 0 (n p))) r
                             = cover_count st' p s r).
  { intros r. apply count_occ_visited. intros j Hj.
    apply Hnd. apply elem_of_seq in Hj. lia. }
  assert (Hiff : (NoDup (visited st' p s (seq 0 (n p)))
                  /\ forall r, r < rows p -> r ∈ visited st' p s (seq 0 (n p)))
                 <-> exact_cover st' p s).
  { rewrite (once_each_iff _ _ HV). unfold exact_cover.
    split; intros H r Hr; [rewrite <- Hcount|rewrite Hcount]; by apply H. }
  rewrite <- Hiff. clear Hiff.
  unfold validate.
  pose proof (validate_loop_spec st' p s (seq 0 (n p))
                (BitSet.create (rows p)) []) as Hl.
  rewrite size_create in Hl. simpl in Hl.
  assert (H1 : forall i, i ∈ seq 0 (n p) ->
             Forall (fun r => r < rows p) (set_rows st' p i)).
  { intros i _. apply Forall_forall. intros r Hr. by eapply new_set_rows_lt. }
  assert (H2 : forall r, BitSet.get (BitSet.create (rows p)) r = true <-> r ∈ @nil nat).
  { intros r. rewrite get_create. split; [discriminate|]. by intros ?%elem_of_nil. }
  specialize (Hl H1 H2 (NoDup_nil_2)).
  destruct (validate_loop st' p s (BitSet.create (rows p)) (seq 0 (n p)))
    as [bs|].
  - destruct Hl as (Hnd' & Hsz & Hbs). rewrite all_true, Hsz.
    split.
    + intros H. split; [done|]. intros r Hr. apply Hbs. by apply H.
    + intros [_ H] r Hr. apply Hbs. by apply H.
  - split; [discriminate|]. by intros [? _].
Qed.

(** ** Row selection *)

Lemma selectRow_max_fold (s : BitSet.t) (R : list (list nat)) :
  forall acc : list nat,
  let res := foldl (fun max row =>
                      if length max <? length (ri s row) then ri s row
                      else max) acc R in
  (res = acc
   /\ forall j, j < length R -> length (ri s (row_at R j)) <= length acc)
  \/ (exists i, i < length R
        /\ res = ri s (row_at R i)
        /\ length acc < length (ri s (row_at R i))
        /\ (forall j, j < length R ->
              length (ri s (row_at R j)) <= length (ri s (row_at R i)))
        /\ (forall j, j < i ->
              length (ri s (row_at R j)) < length (ri s (row_at R i)))).
Proof.
  induction R as [|x R IH]; intros acc; simpl.
  - left. split; [done|]. intros j Hj. lia.
  - destruct (length acc <? length (ri s x)) eqn:E.
    + apply Nat.ltb_lt in E.
      destruct (IH (ri s x)) as [[Hres Hle]|(i & Hi & Hres & Hlt & Hmax & Hfirst)].
      * right. exists 0. simpl. split; [lia|]. split; [done|]. split; [done|].
        split; [|intros j Hj; lia].
        intros [|j] Hj; simpl; [done|]. apply Hle. lia.
      * right. exists (S i). simpl. split; [lia|]. split; [done|].
        split; [unfold row_at in *; simpl; lia|]. split.
        -- intros [|j] Hj; unfold row_at in *; simpl; [lia|]. apply Hmax. lia.
        -- intros [|j] Hj; unfold row_at in *; simpl; [lia|]. apply Hfirst. lia.
    + apply Nat.ltb_ge in E.
      destruct (IH acc) as [[Hres Hle]|(i & Hi & Hres & Hlt & Hmax & Hfirst)].
      * left. split; [done|].
        intros [|j] Hj; unfold row_at in *; simpl; [done|]. apply Hle. lia.
      * right. exists (S i). simpl. split; [lia|]. split; [done|].
        split; [unfold row_at in *; simpl; lia|]. split.
        -- intros [|j] Hj; unfold row_at in *; simpl; [lia|]. apply Hmax. lia.
        -- intros [|j] Hj; unfold row_at in *; simpl; [lia|]. apply Hfirst. lia.
Qed.

(** C7: with the Max strategy and at least one row, [selectRow] reads no
    draw and returns, for the first row in ascending row index whose
    count of selected covering sets is the largest over all rows, the
    sets listed for that row that the solution selects, in the order of
    the list: no row has more selected sets listed and every earlier row
    has fewer. *)
Theorem selectRow_Max_first_largest (p : SPProblem) (s : BitSet.t) (t : tape) :
  0 < length (Ri p) ->
  exists i,
    i < length (Ri p)
    /\ selectRow p s Max t
       = Ok (List.filter (BitSet.get s) (row_at (Ri p) i), t)
    /\ (forall j, j < length (Ri p) ->
          length (List.filter (BitSet.get s) (row_at (Ri p) j))
          <= length (List.filter (BitSet.get s) (row_at (Ri p) i)))
    /\ (forall j, j < i ->
          length (List.filter (BitSet.get s) (row_at (Ri p) j))
          < length (List.filter (BitSet.get s) (row_at (Ri p) i))).
Proof.
  intros Hrows. unfold selectRow, ret, selectRow_max. cbv zeta.
  destruct (selectRow_max_fold s (Ri p) [])
    as [[Hres Hle]|(i & Hi & Hres & Hlt & Hmax & Hfirst)].
  - exists 0. split; [done|]. simpl in Hle.
    assert (H0 : ri s (row_at (Ri p) 0) = []).
    { apply length_zero_iff_nil. specialize (Hle 0 Hrows). lia. }
    unfold ri in *.
    split; [by rewrite Hres, H0|]. split; [|intros j Hj; lia].
    intros j Hj. specialize (Hle j Hj). lia.
  - exists i. unfold ri in *.
    split; [done|]. split; [by rewrite Hres|]. done.
Qed.

(** ** Draws *)

Lemma draw_val_range (d : draw) : (0 <= draw_val d < 1)%Q.
Proof.
  unfold draw_val, Qle, Qlt. simpl.
  rewrite Zpos_P_of_succ_nat. lia.
Qed.

Lemma randInt_of_range (d : draw) (a b : Z) :
  (a < b)%Z -> (a <= randInt_of d a b < b)%Z.
Proof.
  intros Hab. unfold randInt_of.
  pose proof (draw_val_range d) as [H0 H1].
  set (u := draw_val d) in *.
  assert (Hk : (0 < inject_Z (b - a))%Q).
  { change 0%Q with (inject_Z 0). rewrite <- Zlt_Qlt. lia. }
  assert (Hlo : (0 <= Qfloor (u * inject_Z (b - a)))%Z).
  { change 0%Z with (Qfloor (inject_Z 0)).
    apply Qfloor_resp_le. change (inject_Z 0) with 0%Q.
    apply Qmult_le_0_compat; lra. }
  assert (Hhi : (Qfloor (u * inject_Z (b - a)) < b - a)%Z).
  { rewrite Zlt_Qlt.
    eapply Qle_lt_trans; [apply Qfloor_le|].
    rewrite <- (Qmult_1_l (inject_Z (b - a))) at 2.
    apply Qmult_lt_compat_r; lra. }
  lia.
Qed.



(** ** Local search *)

Section Improve.
Variable st : Store.
Variable p : SPProblem.
Variable s : BitSet.t.

Local Abbreviation v0 := (value st p s).
Local Abbreviation fv c := (value st p (BitSet.flip s c)).

Lemma best_loop_spec (cols : list nat) :
  forall rest pre bestCost best,
  cols = pre ++ rest ->
  best_inv st p s cols pre bestCost best ->
  exists bestCost' best',
    best_loop st p (length pre) rest s bestCost best = (s, bestCost', best')
    /\ best_inv st p s cols cols bestCost' best'.
Proof.
  induction rest as [|c rest IH]; intros pre bestCost best Hcols Hinv; simpl.
  - rewrite app_nil_r in Hcols. subst pre. by eauto.
  - rewrite !flip_flip.
    assert (Hcols' : cols = (pre ++ [c]) ++ rest).
    { by rewrite <- app_assoc. }
    assert (Hlen : S (length pre) = length (pre ++ [c])).
    { rewrite length_app. simpl. lia. }
    assert (Hk : cols !! length pre = Some c).
    { rewrite Hcols. by rewrite list_lookup_middle. }
    rewrite Hlen.
    destruct (Qltb (fv c) bestCost) eqn:E.
    + apply Qltb_lt in E. apply IH; [done|].
      right. exists (length pre), c.
      destruct Hinv as [(-> & -> & Hpre)|(k & c0 & -> & Hc0 & -> & Hlt & Hpre)].
      * split; [done|]. split; [done|]. split; [done|]. split; [done|].
        intros c' [Hc'| ->%list_elem_of_singleton]%elem_of_app; [|lra].
        specialize (Hpre c' Hc'). lra.
      * split; [done|]. split; [done|]. split; [done|]. split; [lra|].
        intros c' [Hc'| ->%list_elem_of_singleton]%elem_of_app; [|lra].
        specialize (Hpre c' Hc'). lra.
    + apply Qltb_ge in E. apply IH; [done|].
      destruct Hinv as [(-> & -> & Hpre)|(k & c0 & -> & Hc0 & -> & Hlt & Hpre)].
      * left. split; [done|]. split; [done|].
        intros c' [Hc'| ->%list_elem_of_singleton]%elem_of_app; [|done].
        by apply Hpre.
      * right. exists k, c0.
        split; [done|]. split; [done|]. split; [done|]. split; [done|].
        intros c' [Hc'| ->%list_elem_of_singleton]%elem_of_app; [|done].
        by apply Hpre.
Qed.

Lemma first_loop_spec (rest : list nat) (bestCost : Q) :
  match first_loop st p rest s bestCost with
  | Some r => exists c, c ∈ rest /\ r = BitSet.flip s c /\ (fv c < bestCost)%Q
  | None => forall c, c ∈ rest -> (bestCost <= fv c)%Q
  end.
Proof.
  induction rest as [|c rest IH]; simpl.
  - intros c Hc. by apply elem_of_nil in Hc.
  - destruct (Qltb (fv c) bestCost) eqn:E.
    + apply Qltb_lt in E. exists c. split; [by left|done].
    + apply Qltb_ge in E. rewrite flip_flip.
      destruct (first_loop st p rest s bestCost) as [r|].
      * destruct IH as (c' & Hc' & Hr & Hlt). exists c'.
        split; [by right|done].
      * intros c' [->|Hc']%elem_of_cons; [done|by apply IH].
Qed.

(** The result of [improve] for a given list of columns. *)
Lemma improve_with_spec (imp : ImprovementStrategy) (cols : list nat) :
  let r := improve_with st p s imp cols in
  (value st p r <= v0)%Q
  /\ (r = s \/ exists c, c ∈ cols /\ r = BitSet.flip s c /\ (fv c < v0)%Q)
  /\ (imp = Best -> (exists c, c ∈ cols /\ (fv c < v0)%Q) ->
      exists c, c ∈ cols /\ r = BitSet.flip s c /\ (fv c < v0)%Q
                /\ forall c', c' ∈ cols -> (fv c <= fv c')%Q)
  /\ ((forall c, c ∈ cols -> (v0 <= fv c)%Q) -> r = s).
Proof.
  unfold improve_with, BitSet.copy. destruct imp.
  - (* First *)
    pose proof (first_loop_spec cols v0) as H.
    destruct (first_loop st p cols s v0) as [r|]; simpl.
    + destruct H as (c & Hc & -> & Hlt).
      split; [lra|]. split; [by eauto|]. split; [discriminate|].
      intros Hall. specialize (Hall c Hc). lra.
    + split; [lra|]. split; [by left|]. split; [discriminate|done].
  - (* Best *)
    destruct (best_loop_spec cols cols [] v0 (-1)%Z eq_refl)
      as (bc & b & E & Hinv).
    { left. split; [done|]. split; [done|].
      intros c Hc. by apply elem_of_nil in Hc. }
    simpl in E. rewrite E.
    destruct Hinv as [(-> & -> & Hall)|(k & c & -> & Hk & -> & Hlt & Hall)].
    + simpl. split; [lra|]. split; [by left|]. split; [|done].
      intros _ (c & Hc & Hlt). specialize (Hall c Hc). lra.
    + unfold zlookup.
      assert (Hz : (Z.of_nat k <? 0)%Z = false) by (apply Z.ltb_ge; lia).
      rewrite Hz, Nat2Z.id, Hk.
      assert (Hc : c ∈ cols) by by eapply list_elem_of_lookup_2.
      split; [lra|]. split; [by eauto|]. split; [by eauto|].
      intros Hall'. specialize (Hall' c Hc). lra.
Qed.
End Improve.




Lemma improve_with_size st p (s : BitSet.t) imp cols :
  BitSet.size (improve_with st p s imp cols) = BitSet.size s.
Proof.
  destruct (improve_with_spec st p s imp cols)
    as (_ & [->|(c & _ & -> & _)] & _); [done|apply size_flip].
Qed.

(** [improve] keeps the size of the solution. *)
Lemma improve_size st p (s : BitSet.t) imp rss t r t' :
  improve st p s imp rss t = Ok (r, t') -> BitSet.size r = BitSet.size s.
Proof.
  intros H. unfold improve, bind in H.
  destruct (selectRow p s rss t) as [[cols t1]|] eqn:E; [|discriminate].
  unfold ret in H. inversion H; subst. apply improve_with_size.
Qed.


(** ** The generic two-point crossover *)

Lemma bitset_ext (x y : BitSet.t) :
  BitSet.size x = BitSet.size y ->
  (forall j, BitSet.get x j = BitSet.get y j) -> x = y.
Proof.
  unfold BitSet.size, BitSet.get. intros Hsz Hget.
  apply list_eq. intros j. specialize (Hget j).
  destruct (x !! j) as [bx|] eqn:Ex, (y !! j) as [by_|] eqn:Ey; simpl in Hget.
  - by subst.
  - apply lookup_lt_Some in Ex. apply lookup_ge_None in Ey. lia.
  - apply lookup_ge_None in Ex. apply lookup_lt_Some in Ey. lia.
  - done.
Qed.

Lemma get_ge (x : BitSet.t) j : BitSet.size x <= j -> BitSet.get x j = false.
Proof.
  unfold BitSet.size, BitSet.get. intros H.
  by rewrite (proj2 (lookup_ge_None x j) H).
Qed.

Lemma get_set_same (x : BitSet.t) (y : BitSet.t) j :
  BitSet.size x = BitSet.size y ->
  BitSet.get (BitSet.set x j (BitSet.get y j)) j = BitSet.get y j.
Proof.
  intros Hsz. destruct (decide (j < BitSet.size x)) as [H|H].
  - by apply get_set_eq.
  - unfold BitSet.set. rewrite list_insert_ge by (unfold BitSet.size in H; lia).
    rewrite !get_ge; [done|lia|lia].
Qed.

(** The bits that the loop of [tpx] writes. *)
Lemma tpx_loop_spec (a b : BitSet.t) (x : Z) (idx : list nat) :
  BitSet.size a = BitSet.size b ->
  forall ab ba ab' ba',
  BitSet.size ab = BitSet.size a -> BitSet.size ba = BitSet.size a ->
  tpx_loop a b x idx ab ba = (ab', ba') ->
  BitSet.size ab' = BitSet.size a /\ BitSet.size ba' = BitSet.size a
  /\ forall j,
       (j ∈ tpx_window (BitSet.size a) x idx ->
        BitSet.get ab' j = BitSet.get b j /\ BitSet.get ba' j = BitSet.get a j)
       /\ (j ∉ tpx_window (BitSet.size a) x idx ->
           BitSet.get ab' j = BitSet.get ab j
           /\ BitSet.get ba' j = BitSet.get ba j).
Proof.
  intros Hab. unfold tpx_window.
  induction idx as [|i idx IH]; intros ab ba ab' ba' Hsa Hsb H; simpl in H.
  - inversion H; subst. split; [done|]. split; [done|].
    intros j. split; [by intros ?%elem_of_nil|done].
  - apply IH in H as (Hs1 & Hs2 & Hj); [|by rewrite size_set..].
    split; [done|]. split; [done|].
    set (bit := Z.to_nat (Z.rem (x + Z.of_nat i) (Z.of_nat (BitSet.size a)))) in *.
    intros j. destruct (Hj j) as [Hin Hout]. simpl. fold bit. split.
    + intros Hm.
      destruct (decide (j ∈ map (fun i0 => Z.to_nat (Z.rem (x + Z.of_nat i0)
                  (Z.of_nat (BitSet.size a)))) idx)) as [Hd|Hd]; [by apply Hin|].
      apply elem_of_cons in Hm as [->|?]; [|done].
      destruct (Hout Hd) as [-> ->].
      split; apply get_set_same; congruence.
    + intros Hm. apply not_elem_of_cons in Hm as [Hne Hm].
      destruct (Hout Hm) as [-> ->].
      by rewrite !get_set_ne.
Qed.

Lemma tpx_window_full (size : nat) (x : Z) (j : nat) :
  (0 <= x < Z.of_nat size)%Z -> j < size ->
  j ∈ tpx_window size x (seq 0 size).
Proof.
  intros Hx Hj. unfold tpx_window.
  set (i := if decide (x <= Z.of_nat j)%Z then (Z.of_nat j - x)%Z
            else (Z.of_nat j + Z.of_nat size - x)%Z).
  assert (Hi : (0 <= i < Z.of_nat size)%Z).
  { unfold i. case_decide; lia. }
  apply list_elem_of_fmap. exists (Z.to_nat i).
  split; [|apply elem_of_seq; lia].
  rewrite Z2Nat.id by lia.
  rewrite Z.rem_mod_nonneg by lia.
  unfold i. case_decide.
  - replace (x + (Z.of_nat j - x))%Z with (Z.of_nat j) by lia.
    rewrite Z.mod_small by lia. lia.
  - replace (x + (Z.of_nat j + Z.of_nat size - x))%Z
      with (Z.of_nat j + 1 * Z.of_nat size)%Z by lia.
    rewrite Z_mod_plus_full, Z.mod_small by lia. lia.
Qed.

(** C9: for parents of one size and any draw of the start offset, [tpx]
    returns two children of the size of the parents; with xFactor 1 the
    first child is the second parent and the second child is the first
    parent, bit for bit. *)
Theorem tpx_sizes_and_full_swap (a b : BitSet.t) (xFactor : Q)
    (d : draw) (t : tape) :
  BitSet.size a = BitSet.size b ->
  exists ab ba,
    tpx a b xFactor (d :: t) = Ok ((ab, ba), t)
    /\ BitSet.size ab = BitSet.size a /\ BitSet.size ba = BitSet.size b
    /\ ((xFactor == 1)%Q -> ab = b /\ ba = a).
Proof.
  intros Hab. unfold tpx, bind, randInt, ret, BitSet.copy.
  set (x := randInt_of d 0 (Z.of_nat (BitSet.size a))).
  set (distance := Qceiling (Qnat (BitSet.size a) * xFactor)).
  destruct (tpx_loop a b x (seq 0 (Z.to_nat distance)) a b) as [ab ba] eqn:E.
  exists ab, ba. split; [done|].
  destruct (tpx_loop_spec a b x _ Hab a b ab ba eq_refl (eq_sym Hab) E)
    as (Hs1 & Hs2 & Hj).
  split; [done|]. split; [congruence|].
  intros Hx.
  assert (Hd : Z.to_nat distance = BitSet.size a).
  { unfold distance.
    assert (Hq : (Qnat (BitSet.size a) * xFactor
                  == inject_Z (Z.of_nat (BitSet.size a)))%Q).
    { rewrite Hx. unfold Qnat. lra. }
    rewrite (Qceiling_comp _ _ Hq), Qceiling_Z. lia. }
  rewrite Hd in Hj.
  assert (Hall : forall j, BitSet.get ab j = BitSet.get b j
                           /\ BitSet.get ba j = BitSet.get a j).
  { intros j. destruct (decide (j < BitSet.size a)) as [Hlt|Hge].
    - apply Hj. apply tpx_window_full; [|done].
      apply randInt_of_range. lia.
    - rewrite !get_ge; [done|lia..]. }
  split; apply bitset_ext; try congruence; intros j; by apply Hall.
Qed.

(** Read with a constructor that shares the buffer, the same loop leaves
    the storage of [b] as it was: the second child would then be [b]
    whatever xFactor is, not [a]. *)
Lemma tpx_loop_shared_keeps_b (size : nat) (x : Z) (idx : list nat) :
  forall sa sb : BitSet.t,
  BitSet.size sa = BitSet.size sb ->
  (tpx_loop_shared size x idx sa sb).2 = sb.
Proof.
  induction idx as [|i idx IH]; intros sa sb Hs; simpl; [done|].
  set (bit := Z.to_nat (Z.rem (x + Z.of_nat i) (Z.of_nat size))).
  assert (Hsb : BitSet.set sb bit
                  (BitSet.get (BitSet.set sa bit (BitSet.get sb bit)) bit) = sb).
  { rewrite get_set_same by done. unfold BitSet.set, BitSet.get.
    destruct (sb !! bit) as [v|] eqn:Eb; simpl.
    - by apply list_insert_id.
    - apply list_insert_ge. by apply lookup_ge_None. }
  rewrite Hsb. apply IH. by rewrite size_set.
Qed.

(** ** Random generation *)

Lemma selected_count_set (s : BitSet.t) v :
  v < BitSet.size s -> BitSet.get s v = false ->
  selected_count (BitSet.set s v true) = S (selected_count s).
Proof.
  unfold selected_count, BitSet.size, BitSet.get, BitSet.set.
  revert v. induction s as [|b s IH]; intros v Hv Hg; [simpl in Hv; lia|].
  destruct v as [|v].
  - simpl in Hg. subst b. reflexivity.
  - simpl in Hv, Hg. specialize (IH v ltac:(lia) Hg).
    change (<[S v:=true]> (b :: s)) with (b :: <[v:=true]> s).
    destruct b; simpl; by rewrite IH.
Qed.

Lemma selected_count_create k : selected_count (BitSet.create k) = 0.
Proof.
  unfold selected_count, BitSet.create. induction k as [|k IH]; simpl; done.
Qed.

Lemma Qceiling_unique (q : Q) (i : Z) :
  (inject_Z (i - 1) < q)%Q -> (q <= inject_Z i)%Q -> Qceiling q = i.
Proof.
  intros Hlo Hhi.
  pose proof (Qle_ceiling q) as H1. pose proof (Qceiling_lt q) as H2.
  assert (A : (i - 1 < Qceiling q)%Z).
  { rewrite Zlt_Qlt. lra. }
  assert (B : (Qceiling q - 1 < i)%Z).
  { rewrite Zlt_Qlt. lra. }
  lia.
Qed.

Lemma Qceiling_nonpos (q : Q) : (q <= 0)%Q -> (Qceiling q <= 0)%Z.
Proof.
  intros H. pose proof (Qceiling_lt q) as H2.
  assert (A : (Qceiling q - 1 < 0)%Z).
  { rewrite Zlt_Qlt. change (inject_Z 0) with 0%Q. lra. }
  lia.
Qed.

Lemma generate_loop_spec p (q : Q) :
  (q <= Qnat (n p))%Q ->
  forall (t : tape) (s : BitSet.t) (i : Z) s' t',
  BitSet.size s = n p ->
  Z.of_nat (selected_count s) = i ->
  (i = 0%Z \/ (inject_Z (i - 1) < q)%Q) ->
  generate_loop p (Fin q) t s i = Ok (s', t') ->
  BitSet.size s' = n p /\ selected_count s' = Z.to_nat (Qceiling q).
Proof.
  intros Hq. induction t as [|d t IH]; intros s i s' t' Hs Hi Hinv H;
    simpl in H; destruct (Qltb (inject_Z i) q) eqn:E.
  - discriminate.
  - apply Qltb_ge in E. inversion H; subst s' t'. split; [done|].
    destruct Hinv as [->|Hlt].
    + apply Qceiling_nonpos in E. lia.
    + rewrite (Qceiling_unique q i) by done. lia.
  - apply Qltb_lt in E.
    assert (Hn : (0 < Z.of_nat (n p))%Z).
    { rewrite Zlt_Qlt. unfold Qnat in Hq.
      assert (0 <= inject_Z i)%Q.
      { change 0%Q with (inject_Z 0). rewrite <- Zle_Qle. lia. }
      change (inject_Z 0) with 0%Q. lra. }
    pose proof (randInt_of_range d 0 (Z.of_nat (n p)) Hn) as Hv.
    set (v := Z.to_nat (randInt_of d 0 (Z.of_nat (n p)))) in *.
    destruct (BitSet.get s v) eqn:Eg.
    + replace (i - 1 + 1)%Z with i in H by lia. by eapply IH.
    + eapply IH; [| |right|exact H].
      * by rewrite size_set.
      * rewrite selected_count_set; [lia| |done]. unfold v. lia.
      * by replace (i + 1 - 1)%Z with i by lia.
  - apply Qltb_ge in E. inversion H; subst s' t'. split; [done|].
    destruct Hinv as [->|Hlt].
    + apply Qceiling_nonpos in E. lia.
    + rewrite (Qceiling_unique q i) by done. lia.
Qed.

Lemma randInt_of_draw_for (size j : nat) :
  j < size -> randInt_of (draw_for size j) 0 (Z.of_nat size) = Z.of_nat j.
Proof.
  intros Hj. unfold randInt_of. rewrite Z.sub_0_r.
  assert (H : Qfloor (draw_val (draw_for size j) * inject_Z (Z.of_nat size))
              = Z.of_nat j).
  { transitivity (Qfloor (inject_Z (Z.of_nat j))); [|apply Qfloor_Z].
    apply Qfloor_comp. unfold draw_for, draw_val, Qeq, Qmult, inject_Z.
    cbn [Qnum Qden dnum dgap].
    rewrite Pos.mul_1_r, Zpos_P_of_succ_nat.
    replace (Z.succ (Z.of_nat (j + (size - 1 - j)))) with (Z.of_nat size)
      by lia.
    ring. }
  rewrite H. lia.
Qed.

(** A solution with fewer set bits than its size has a clear bit. *)
Lemma clear_bit_exists (s : BitSet.t) :
  selected_count s < BitSet.size s ->
  exists v, v < BitSet.size s /\ BitSet.get s v = false.
Proof.
  unfold selected_count, BitSet.size, BitSet.get.
  induction s as [|b s IH]; simpl; [lia|].
  destruct b; simpl; intros H.
  - destruct IH as (v & Hv & Hg); [lia|]. exists (S v). split; [lia|done].
  - exists 0. split; [lia|done].
Qed.

(** From any state of the loop some draws lead to a return: each draw
    picks a clear bit. *)
Lemma generate_loop_completes p (q : Q) :
  (q <= Qnat (n p))%Q ->
  forall (k : nat) (s : BitSet.t) (i : Z),
  BitSet.size s = n p ->
  Z.of_nat (selected_count s) = i ->
  (Qceiling q <= i + Z.of_nat k)%Z ->
  exists t s', generate_loop p (Fin q) t s i = Ok (s', []).
Proof.
  intros Hq. induction k as [|k IH]; intros s i Hs Hi Hk.
  - exists [], s. simpl.
    assert (E : Qltb (inject_Z i) q = false).
    { apply Qltb_ge. pose proof (Qle_ceiling q) as H.
      rewrite Zle_Qle in Hk. rewrite Z.add_0_r in Hk. lra. }
    by rewrite E.
  - destruct (Qltb (inject_Z i) q) eqn:E.
    + apply Qltb_lt in E.
      assert (Hlt : selected_count s < BitSet.size s).
      { rewrite Hs. apply Nat2Z.inj_lt. rewrite Hi, Zlt_Qlt.
        unfold Qnat in Hq. lra. }
      destruct (clear_bit_exists s Hlt) as (v & Hv & Hg).
      destruct (IH (BitSet.set s v true) (i + 1)%Z) as (t & s' & Ht).
      * by rewrite size_set.
      * rewrite selected_count_set by done. lia.
      * lia.
      * exists (draw_for (n p) v :: t), s'.
        cbn [generate_loop num_lt]. apply Qltb_lt in E. rewrite E.
        rewrite randInt_of_draw_for by lia. rewrite Nat2Z.id, Hg. exact Ht.
    + exists [], s. simpl. by rewrite E.
Qed.

(** A run of the loop that does not return has only run short of draws,
    and returns once it is given suitable further draws. *)
Lemma generate_loop_extends p (q : Q) :
  (q <= Qnat (n p))%Q ->
  forall (t : tape) (s : BitSet.t) (i : Z),
  BitSet.size s = n p ->
  Z.of_nat (selected_count s) = i ->
  (exists s' t', generate_loop p (Fin q) t s i = Ok (s', t'))
  \/ (generate_loop p (Fin q) t s i = Err OutOfDraws
      /\ exists t2 s', generate_loop p (Fin q) (t ++ t2) s i = Ok (s', [])).
Proof.
  intros Hq. induction t as [|d t IH]; intros s i Hs Hi.
  - destruct (Qltb (inject_Z i) q) eqn:E.
    + right. split; [simpl; by rewrite E|].
      apply (generate_loop_completes p q Hq (Z.to_nat (Qceiling q - i)));
        [done|done|lia].
    + left. exists s, []. simpl. by rewrite E.
  - cbn [generate_loop app num_lt]. destruct (Qltb (inject_Z i) q) eqn:E.
    + apply Qltb_lt in E.
      assert (Hn : (0 < Z.of_nat (n p))%Z).
      { rewrite Zlt_Qlt. unfold Qnat in Hq.
        assert (0 <= inject_Z i)%Q.
        { change 0%Q with (inject_Z 0). rewrite <- Zle_Qle. lia. }
        change (inject_Z 0) with 0%Q. lra. }
      pose proof (randInt_of_range d 0 (Z.of_nat (n p)) Hn) as Hv.
      set (v := Z.to_nat (randInt_of d 0 (Z.of_nat (n p)))) in *.
      destruct (BitSet.get s v) eqn:Eg.
      * replace (i - 1 + 1)%Z with i by lia. by apply IH.
      * apply IH; [by rewrite size_set|].
        rewrite selected_count_set; [lia| |done]. unfold v. lia.
    + left. by exists s, (d :: t).
Qed.

(** Every run of [generate] on a problem whose target does not exceed n
    returns or has run short of draws, and in the second case returns
    once continued with suitable draws. *)
Lemma generate_returns p (q : Q) (t : tape) :
  nonZero p = Fin q ->
  (q <= Qnat (n p))%Q ->
  (exists s t', generate p t = Ok (s, t'))
  \/ (generate p t = Err OutOfDraws
      /\ exists t2 s, generate p (t ++ t2) = Ok (s, [])).
Proof.
  intros Hnz Hq. unfold generate. rewrite Hnz.
  apply generate_loop_extends; [done|apply size_create|].
  by rewrite selected_count_create.
Qed.

(** C6 (amended): when the target, the double q that the two divisions
    of rows / averageNonZeros give, does not exceed n, a call of
    [generate] that returns gives a bit vector of length n with exactly
    ceiling(q) bits set (none when q is not positive); a draw that picks
    a set bit is retried with the solution and the counter as they were;
    and a call that does not return has only run short of draws:
    continued with suitable draws it returns. *)
Theorem generate_selects_ceiling p (q : Q) :
  nonZero p = Fin q ->
  (q <= Qnat (n p))%Q ->
  (forall t s t',
     generate p t = Ok (s, t') ->
     BitSet.size s = n p /\ selected_count s = Z.to_nat (Qceiling q))
  /\ (forall d t (s : BitSet.t) i,
        (inject_Z i < q)%Q ->
        BitSet.get s (Z.to_nat (randInt_of d 0 (Z.of_nat (n p)))) = true ->
        generate_loop p (nonZero p) (d :: t) s i
        = generate_loop p (nonZero p) t s i)
  /\ (forall t,
        (exists s t', generate p t = Ok (s, t'))
        \/ (generate p t = Err OutOfDraws
            /\ exists t2 s, generate p (t ++ t2) = Ok (s, []))).
Proof.
  intros Hnz Hq. split; [|split].
  - intros t s t' H. unfold generate in H. rewrite Hnz in H.
    eapply generate_loop_spec; [done| | | |exact H].
    + apply size_create.
    + by rewrite selected_count_create.
    + by left.
  - intros d t s i Hi Hg. rewrite Hnz. simpl.
    apply Qltb_lt in Hi. rewrite Hi, Hg.
    by replace (i - 1 + 1)%Z with i by lia.
  - intros t. by apply (generate_returns p q).
Qed.

(** ** The driver *)

Section DriverProofs.
Variable st : Store.
Variable problem : SPProblem.
Variables popSize genN improvements : nat.
Variable improveS : ImprovementStrategy.
Variable rowSelectionS : RowSelectionStrategy.
Variables selRate xRate : Q.

Local Abbreviation val := (value st problem).
Local Abbreviation improve_k :=
  (improve_times st problem improveS rowSelectionS).


Lemma dominates_refl pop : dominates st problem pop pop.
Proof. intros x Hx. exists x. split; [done|lra]. Qed.

Lemma dominates_trans pop1 pop2 pop3 :
  dominates st problem pop2 pop1 -> dominates st problem pop3 pop2 ->
  dominates st problem pop3 pop1.
Proof.
  intros H12 H23 x Hx. destruct (H12 x Hx) as (y & Hy & Hxy).
  destruct (H23 y Hy) as (z & Hz & Hyz). exists z. split; [done|lra].
Qed.

(** Putting a strictly better child in the place of a member keeps the
    best value from rising. *)
Lemma dominates_replace (pop : list BitSet.t) k (old c : BitSet.t) :
  pop !! k = Some old -> (val c < val old)%Q ->
  dominates st problem (<[k := c]> pop) pop.
Proof.
  intros Hk Hlt x Hx. apply list_elem_of_lookup in Hx as [j Hj].
  destruct (decide (j = k)) as [->|Hne].
  - exists c. split.
    + apply list_elem_of_lookup. exists k.
      apply list_lookup_insert_eq. by eapply lookup_lt_Some.
    + assert (x = old) by congruence. subst. lra.
  - exists x. split; [|lra].
    apply list_elem_of_lookup. exists j. by rewrite list_lookup_insert_ne.
Qed.

Lemma cached_lookup pop pCost k w :
  cached st problem pop pCost -> pCost !! k = Some w ->
  exists old, pop !! k = Some old /\ w = val old.
Proof.
  unfold cached. intros -> H. rewrite list_lookup_fmap in H.
  destruct (pop !! k) as [old|]; simpl in H; [|discriminate].
  exists old. split; [done|congruence].
Qed.

Lemma cached_insert pop pCost k (c : BitSet.t) :
  cached st problem pop pCost ->
  cached st problem (<[k := c]> pop) (<[k := val c]> pCost).
Proof. unfold cached. intros ->. by rewrite list_fmap_insert. Qed.

Lemma init_population_spec k : forall pop pCost t pop' pCost' t',
  init_population st problem improvements improveS rowSelectionS
    k pop pCost t = Ok ((pop', pCost'), t') ->
  cached st problem pop pCost ->
  cached st problem pop' pCost' /\ length pop' = length pop + k.
Proof.
  induction k as [|k IH]; intros pop pCost t pop' pCost' t' H Hc;
    simpl in H.
  - unfold ret in H. inversion H; subst. split; [done|lia].
  - unfold bind in H.
    destruct (generate problem t) as [[s t1]|]; [|discriminate].
    destruct (improve_k improvements s t1) as [[s1 t2]|]; [|discriminate].
    apply IH in H as [H1 H2].
    + split; [done|]. rewrite length_app in H2. simpl in H2. lia.
    + unfold cached in *. subst pCost. by rewrite map_app.
Qed.

Lemma replace_loop_spec newP : forall pop pCost t pop' pCost' t',
  replace_loop st problem improvements improveS rowSelectionS
    newP pop pCost t = Ok ((pop', pCost'), t') ->
  cached st problem pop pCost ->
  cached st problem pop' pCost' /\ length pop' = length pop
  /\ dominates st problem pop' pop.
Proof.
  induction newP as [|c newP IH]; intros pop pCost t pop' pCost' t' H Hc;
    simpl in H.
  - unfold ret in H. inversion H; subst.
    split; [done|]. split; [done|]. apply dominates_refl.
  - unfold bind in H.
    destruct (improve_k improvements c t) as [[c1 t1]|]; [|discriminate].
    destruct (zlookup pCost (findWorst st problem pop)) as [w|] eqn:Ew;
      [|by apply IH in H].
    destruct (Qltb (val c1) w) eqn:El; [|by apply IH in H].
    apply Qltb_lt in El. unfold zlookup in Ew.
    destruct (findWorst st problem pop <? 0)%Z; [discriminate|].
    destruct (cached_lookup _ _ _ _ Hc Ew) as (old & Hold & ->).
    apply IH in H as (H1 & H2 & H3); [|by apply cached_insert].
    rewrite length_insert in H2. split; [done|]. split; [done|].
    eapply dominates_trans; [|exact H3].
    by eapply dominates_replace.
Qed.

Lemma generations_spec g : forall pop pCost t pop' pCost' t',
  generations st problem popSize improvements improveS rowSelectionS
    selRate xRate g pop pCost t = Ok ((pop', pCost'), t') ->
  cached st problem pop pCost ->
  cached st problem pop' pCost' /\ length pop' = length pop
  /\ dominates st problem pop' pop.
Proof.
  induction g as [|g IH]; intros pop pCost t pop' pCost' t' H Hc;
    simpl in H.
  - unfold ret in H. inversion H; subst.
    split; [done|]. split; [done|]. apply dominates_refl.
  - unfold bind in H.
    destruct (getCandidates st problem popSize selRate pop t)
      as [[selection t1]|]; [|discriminate].
    destruct (breed problem xRate pop selection selection [] t1)
      as [[newP t2]|]; [|discriminate].
    destruct (replace_loop st problem improvements improveS rowSelectionS
                newP pop pCost t2) as [[[pop1 pCost1] t3]|] eqn:Er;
      [|discriminate].
    apply replace_loop_spec in Er as (H1 & H2 & H3); [|done].
    apply IH in H as (H4 & H5 & H6); [|done].
    split; [done|]. split; [lia|]. by eapply dominates_trans.
Qed.






End DriverProofs.

(** ** Crossover of SPProblem *)

(** The length drawn by [crossover] is never 0 and lies in [1, size - 1). *)
Lemma draw_distance_range (size : Z) (t : tape) d t' :
  (1 < size)%Z ->
  draw_distance size t = Ok (d, t') -> (1 <= d < size - 1)%Z.
Proof.
  intros Hs. induction t as [|dr t IH]; cbn [draw_distance];
    [discriminate|].
  destruct (randInt_of dr 0 (size - 1) =? 0)%Z eqn:E; [exact IH|].
  intros H. inversion H; subst. apply Z.eqb_neq in E.
  pose proof (randInt_of_range dr 0 (size - 1) ltac:(lia)). lia.
Qed.

(** When the window does not wrap, its first index [x] is outside the
    range that [inRange] accepts. *)
Lemma inRange_excludes_start p (x distance : Z) :
  (x + distance < Z.of_nat (n p))%Z ->
  inRange p x distance x x distance = false.
Proof.
  intros H. unfold inRange.
  rewrite Z.ltb_irrefl. simpl.
  apply andb_false_iff. left. apply Z.leb_gt. lia.
Qed.

(** When the window does not wrap, the range that [inRange] accepts is
    the [distance - 1] indices after [x]. *)
Lemma inRange_no_wrap p (x distance i : Z) :
  (x + distance < Z.of_nat (n p))%Z ->
  inRange p x distance i x distance = true <-> (x < i < x + distance)%Z.
Proof.
  intros H. unfold inRange.
  assert (E : (Z.of_nat (n p) <=? x + distance)%Z = false)
    by (apply Z.leb_gt; lia).
  rewrite E. simpl. rewrite orb_false_r, andb_true_iff.
  rewrite !Z.ltb_lt. done.
Qed.

(** C5 (the code departs from the claim): on five bits, with start 1 and
    length 2 drawn and no mutation draw firing, the window of the claim
    is the indices 1 and 2, yet the children differ from their own
    parents at index 2 only: index 1, the start, is not swapped. *)
Theorem crossover_leaves_window_start :
  crossover Ex.problem5 (replicate 5 false) (replicate 5 true) Ex.cross_tape
  = Ok (([false; false; true; false; false],
         [true; true; false; true; true]), [])
  /\ randInt_of (draw_for 5 1) 0 5 = 1%Z
  /\ draw_distance 5 [draw_for 4 2] = Ok (2%Z, [])
  /\ tpx_window 5 1 (seq 0 2) = [1; 2].
Proof. vm_compute. repeat split; reflexivity. Qed.

(** ** Instances *)

(** The scenario of section 8 of the specification: selecting the sets
    0, 1 and 2 is feasible with value 3, selecting set 3 alone is
    feasible with value 1, and selecting sets 0 and 3 is not feasible. *)
Example scenario_three_rows :
  validate Ex.store' Ex.problem [true; true; true; false] = true
  /\ (value Ex.store' Ex.problem [true; true; true; false] == 3)%Q
  /\ validate Ex.store' Ex.problem [false; false; false; true] = true
  /\ (value Ex.store' Ex.problem [false; false; false; true] == 1)%Q
  /\ validate Ex.store' Ex.problem [true; false; false; true] = false.
Proof. vm_compute. repeat split; reflexivity. Qed.

Ltac nodup_sets :=
  let j := fresh "j" in
  let Hj := fresh "Hj" in
  intros j Hj;
  do 4 (destruct j as [|j];
        [vm_compute; apply (bool_decide_unpack _); vm_compute; exact I|]);
  vm_compute in Hj; lia.



Lemma validate_iff_exact_cover_witness :
  validate Ex.store' Ex.problem [false; false; false; true] = true
  <-> exact_cover Ex.store' Ex.problem [false; false; false; true].
Proof.
  apply (validate_iff_exact_cover Ex.store Ex.store' 3 [0; 1; 2; 3] 0 1
           Ex.problem [false; false; false; true]).
  - vm_compute. reflexivity.
  - nodup_sets.
  - reflexivity.
Defined.

(** C2 as stated fails when a set lists a row twice: on two rows with
    the sets [0; 0] and [1], the solution that selects both sets covers
    every row by exactly one selected set, and [validate] returns
    false. *)
Lemma validate_iff_exact_cover_counterexample :
  SPProblem_new ExMore.dup_store 2 [0; 1] 0 1
  = Ok (ExMore.dup_problem, ExMore.dup_store')
  /\ BitSet.size [true; true] = n ExMore.dup_problem
  /\ exact_cover ExMore.dup_store' ExMore.dup_problem [true; true]
  /\ validate ExMore.dup_store' ExMore.dup_problem [true; true] = false.
Proof.
  split; [vm_compute; reflexivity|]. split; [reflexivity|].
  split; [|vm_compute; reflexivity].
  intros r Hr. do 2 (destruct r as [|r]; [vm_compute; reflexivity|]).
  vm_compute in Hr. lia.
Qed.


(** On the instance, [improve] with Best and Max takes the solution that
    selects sets 0 and 3, of value 3, to the solution that selects set 3
    alone, of value 1. *)
Example improve_on_instance :
  improve Ex.store' Ex.problem [true; false; false; true] Best Max []
  = Ok ([false; false; false; true], [])
  /\ (value Ex.store' Ex.problem [true; false; false; true] == 3)%Q
  /\ (value Ex.store' Ex.problem [false; false; false; true] == 1)%Q.
Proof. vm_compute. repeat split; reflexivity. Qed.


(** The run of the driver on the instance: the initial population holds
    the solutions 1100 and 0001, of values 3 and 1, and the run returns
    0001. *)
Example ssgarow_on_instance :
  init_population Ex.store' Ex.problem 1 Best Max 2 [] [] Ex.run_tape
  = Ok (([[true; true; false; false]; [false; false; false; true]],
         map (value Ex.store' Ex.problem)
             [[true; true; false; false]; [false; false; false; true]]),
        drop 4 Ex.run_tape)
  /\ ssgarow Ex.store' Ex.problem 2 1 1 Best Max (1 # 2) (7 # 10) Ex.run_tape
     = Ok ([false; false; false; true], []).
Proof. vm_compute. split; reflexivity. Qed.

(** C6 as stated fails: on the instance with target 3/2, which does not
    exceed n = 4, a run of [generate] returns a vector of length 4 with
    two bits set, while the floor of the target is 1. *)
Lemma generate_floor_counterexample :
  SPProblem_new Ex.store2 3 [0; 1; 2; 3] 0 1 = Ex.built2
  /\ Ex.built2 = Ok (Ex.problem2, Ex.store2)
  /\ nonZero Ex.problem2 = Fin Ex.target2
  /\ (Ex.target2 == 3 # 2)%Q
  /\ (Ex.target2 <= Qnat (n Ex.problem2))%Q
  /\ generate Ex.problem2 [draw_for 4 0; draw_for 4 0; draw_for 4 1]
     = Ok ([true; true; false; false], [])
  /\ selected_count [true; true; false; false] = 2
  /\ Qfloor Ex.target2 = 1%Z
  /\ Z.of_nat (selected_count [true; true; false; false])
     <> Qfloor Ex.target2.
Proof. vm_compute. repeat split; try reflexivity; discriminate. Qed.

Lemma generate_selects_ceiling_witness :
  (forall t s t',
     generate Ex.problem2 t = Ok (s, t') ->
     BitSet.size s = n Ex.problem2
     /\ selected_count s = Z.to_nat (Qceiling Ex.target2))
  /\ (forall d t (s : BitSet.t) i,
        (inject_Z i < Ex.target2)%Q ->
        BitSet.get s (Z.to_nat (randInt_of d 0 (Z.of_nat (n Ex.problem2))))
        = true ->
        generate_loop Ex.problem2 (nonZero Ex.problem2) (d :: t) s i
        = generate_loop Ex.problem2 (nonZero Ex.problem2) t s i)
  /\ (forall t,
        (exists s t', generate Ex.problem2 t = Ok (s, t'))
        \/ (generate Ex.problem2 t = Err OutOfDraws
            /\ exists t2 s, generate Ex.problem2 (t ++ t2) = Ok (s, []))).
Proof.
  apply (generate_selects_ceiling Ex.problem2 Ex.target2).
  - vm_compute. reflexivity.
  - vm_compute. discriminate.
Defined.

Lemma selectRow_Max_first_largest_witness :
  exists i,
    i < length (Ri Ex.problem)
    /\ selectRow Ex.problem [true; false; false; true] Max []
       = Ok (List.filter (BitSet.get [true; false; false; true])
                         (row_at (Ri Ex.problem) i), [])
    /\ (forall j, j < length (Ri Ex.problem) ->
          length (List.filter (BitSet.get [true; false; false; true])
                              (row_at (Ri Ex.problem) j))
          <= length (List.filter (BitSet.get [true; false; false; true])
                                 (row_at (Ri Ex.problem) i)))
    /\ (forall j, j < i ->
          length (List.filter (BitSet.get [true; false; false; true])
                              (row_at (Ri Ex.problem) j))
          < length (List.filter (BitSet.get [true; false; false; true])
                                (row_at (Ri Ex.problem) i))).
Proof.
  apply (selectRow_Max_first_largest Ex.problem [true; false; false; true] []).
  vm_compute. lia.
Defined.



(** The scenario of the specification: two sets and three costs. *)
Example SPProblem_new_two_sets_three_costs :
  SPProblem_new (mkStore [[0]; [1]] [[1; 1; 1]%Q]) 2 [0; 1] 0 1
  = Err (ConfigError (details 2 3)).
Proof. reflexivity. Qed.

Lemma tpx_sizes_and_full_swap_witness :
  exists ab ba,
    tpx [false; false; true] [true; true; false] 1 [draw_for 3 2]
    = Ok ((ab, ba), [])
    /\ BitSet.size ab = BitSet.size [false; false; true]
    /\ BitSet.size ba = BitSet.size [true; true; false]
    /\ ((1 == 1)%Q -> ab = [true; true; false] /\ ba = [false; false; true]).
Proof.
  apply (tpx_sizes_and_full_swap [false; false; true] [true; true; false] 1
           (draw_for 3 2) []).
  reflexivity.
Defined.

Lemma SPProblem_new_sorts_sets_in_place_witness :
  (forall a, a ∈ [0; 1; 2; 3] ->
     exists arr, rowArrays Ex.store !! a = Some arr
                 /\ rowArrays Ex.store' !! a = Some (sort arr)
                 /\ Sorted le (sort arr) /\ sort arr ≡ₚ arr)
  /\ (forall a, a ∉ [0; 1; 2; 3] ->
        rowArrays Ex.store' !! a = rowArrays Ex.store !! a)
  /\ costArrays Ex.store' = costArrays Ex.store
  /\ rows Ex.problem = 3 /\ sets Ex.problem = [0; 1; 2; 3]
  /\ costs Ex.problem = 0.
Proof.
  apply (SPProblem_new_sorts_sets_in_place Ex.store 3 [0; 1; 2; 3] 0 1
           Ex.problem Ex.store').
  vm_compute. reflexivity.
Defined.

(** The caller's fourth set is rearranged by the construction. *)
Example SPProblem_new_mutates_store :
  rowArrays Ex.store !! 3 = Some [2; 0; 1]
  /\ rowArrays Ex.store' !! 3 = Some [0; 1; 2].
Proof. split; reflexivity. Qed.

(** * Further properties *)

(** ** The default comparison *)

(** X1: [compare] returns 1 exactly when the first solution has the
    strictly lower value, -1 exactly when the second has, and 0 exactly
    when the values are equal; swapping the arguments negates the result;
    and being better (result 1) is transitive. *)
Theorem compare_sign_antisymmetric_transitive {T : Type} (value : T -> Q)
    (a b c : T) :
  (NPProblem.compare value a b = 1%Z <-> (value a < value b)%Q)
  /\ (NPProblem.compare value a b = (-1)%Z <-> (value b < value a)%Q)
  /\ (NPProblem.compare value a b = 0%Z <-> (value a == value b)%Q)
  /\ NPProblem.compare value b a = (- NPProblem.compare value a b)%Z
  /\ (NPProblem.compare value a b = 1%Z ->
      NPProblem.compare value b c = 1%Z ->
      NPProblem.compare value a c = 1%Z).
Proof.
  assert (Hsign : forall x y : T,
            (NPProblem.compare value x y = 1%Z <-> (value x < value y)%Q)
            /\ (NPProblem.compare value x y = (-1)%Z
                <-> (value y < value x)%Q)
            /\ (NPProblem.compare value x y = 0%Z
                <-> (value x == value y)%Q)).
  { intros x y. unfold NPProblem.compare. cbv zeta.
    destruct (Qltb (value x) (value y)) eqn:E1.
    - apply Qltb_lt in E1.
      repeat split; try discriminate; try done; intros; lra.
    - apply Qltb_ge in E1. destruct (Qltb (value y) (value x)) eqn:E2.
      + apply Qltb_lt in E2.
        repeat split; try discriminate; try done; intros; lra.
      + apply Qltb_ge in E2.
        repeat split; try discriminate; try done; intros; lra. }
  destruct (Hsign a b) as (H1 & H2 & H3).
  split; [done|]. split; [done|]. split; [done|]. split.
  - destruct (Hsign b a) as (G1 & G2 & G3).
    destruct (Qlt_le_dec (value a) (value b)) as [L|L].
    + rewrite (proj2 H1 L), (proj2 G2 L). done.
    + destruct (Qlt_le_dec (value b) (value a)) as [L'|L'].
      * rewrite (proj2 H2 L'), (proj2 G1 L'). done.
      * assert (E : (value a == value b)%Q) by lra.
        rewrite (proj2 H3 E), (proj2 G3 (Qeq_sym _ _ E)). done.
  - intros Hab Hbc. apply H1 in Hab. apply (Hsign b c) in Hbc.
    apply (Hsign a c). lra.
Qed.

(** ** Display and equality of solutions *)

Lemma append_String_end (acc r : string) (c : ascii) :
  ((acc ++ String c EmptyString) ++ r = acc ++ String c r)%string.
Proof. induction acc as [|x acc IH]; simpl; [done|]. by rewrite IH. Qed.

Lemma stringSol_loop (pre rest : list bool) (acc : string) :
  foldl (fun str i =>
           (str ++ (if BitSet.get (pre ++ rest) i then "1" else "0"))%string)
        acc (seq (length pre) (length rest))
  = (acc ++ bits_string rest)%string.
Proof.
  revert pre acc. induction rest as [|b rest IH]; intros pre acc; simpl.
  - induction acc as [|x acc IHa]; simpl; [done|]. by rewrite <- IHa.
  - assert (Hg : BitSet.get (pre ++ b :: rest) (length pre) = b).
    { unfold BitSet.get. by rewrite list_lookup_middle. }
    rewrite Hg.
    assert (Hl : S (length pre) = length (pre ++ [b])).
    { rewrite length_app. simpl. lia. }
    rewrite Hl.
    replace (pre ++ b :: rest) with ((pre ++ [b]) ++ rest)
      by by rewrite <- app_assoc.
    rewrite IH. destruct b; apply append_String_end.
Qed.

Lemma stringSol_bits (s : BitSet.t) : stringSol s = bits_string s.
Proof. apply (stringSol_loop [] s EmptyString). Qed.

Lemma bits_string_length (s : list bool) :
  String.length (bits_string s) = length s.
Proof. induction s as [|b s IH]; simpl; [done|]. by rewrite IH. Qed.

Lemma bits_string_get (s : list bool) (i : nat) :
  String.get i (bits_string s)
  = (fun b : bool => if b then "1"%char else "0"%char) <$> s !! i.
Proof.
  revert i. induction s as [|b s IH]; intros i; simpl; [done|].
  destruct i as [|i]; simpl; [done|]. apply IH.
Qed.

Lemma bits_string_inj (s s' : list bool) :
  bits_string s = bits_string s' -> s = s'.
Proof.
  revert s'. induction s as [|b s IH]; intros [|b' s'] H; simpl in H;
    try discriminate; [done|].
  inversion H as [[Hc Hs]]. f_equal; [|by apply IH].
  by destruct b, b'.
Qed.

(** X2: the string of a solution has one character for each bit, 1 for a
    set bit and 0 for a clear one, in index order; two solutions with
    the same string are the same solution. *)
Theorem stringSol_spells_the_bits (s : BitSet.t) :
  String.length (stringSol s) = BitSet.size s
  /\ (forall i, i < BitSet.size s ->
        String.get i (stringSol s)
        = Some (if BitSet.get s i then "1"%char else "0"%char))
  /\ (forall s' : BitSet.t, stringSol s = stringSol s' -> s = s').
Proof.
  rewrite stringSol_bits. split; [apply bits_string_length|]. split.
  - intros i Hi. rewrite bits_string_get. unfold BitSet.get.
    destruct (lookup_lt_is_Some_2 s i Hi) as [b ->]. done.
  - intros s' H. rewrite stringSol_bits in H. by apply bits_string_inj.
Qed.

Lemma equalSolution_loop_true (a b : BitSet.t) (idx : list nat) :
  equalSolution_loop a b idx = true
  <-> forall i, i ∈ idx -> BitSet.get a i = BitSet.get b i.
Proof.
  induction idx as [|i idx IH]; simpl.
  - split; [|done]. intros _ i Hi. by apply elem_of_nil in Hi.
  - destruct (Bool.eqb (BitSet.get a i) (BitSet.get b i)) eqn:E; simpl.
    + apply Bool.eqb_prop in E. rewrite IH. split.
      * intros H j [->|Hj]%elem_of_cons; [done|by apply H].
      * intros H j Hj. apply H. by right.
    + split; [discriminate|]. intros H.
      specialize (H i ltac:(by left)). rewrite H in E.
      by rewrite Bool.eqb_reflx in E.
Qed.

(** X3: when [a] is not longer than [b], [equalSolution(a, b)] is true
    exactly when [a] is the beginning of [b], bit for bit: the bits of
    [b] past the size of [a] are not looked at; on solutions of one size
    it is true exactly when they are equal. *)
Theorem equalSolution_compares_prefix (a b : BitSet.t) :
  BitSet.size a <= BitSet.size b ->
  (equalSolution a b = true <-> a = take (BitSet.size a) b)
  /\ (BitSet.size a = BitSet.size b ->
      (equalSolution a b = true <-> a = b)).
Proof.
  intros Hle.
  assert (H : equalSolution a b = true <-> a = take (BitSet.size a) b).
  { unfold equalSolution. rewrite equalSolution_loop_true. split.
    - intros Hget. apply bitset_ext.
      + unfold BitSet.size in *. rewrite length_take. lia.
      + intros j. destruct (decide (j < BitSet.size a)) as [Hj|Hj].
        * rewrite Hget by (apply elem_of_seq; lia).
          unfold BitSet.get. by rewrite lookup_take_lt.
        * rewrite !get_ge; [done| |lia].
          unfold BitSet.size in *. rewrite length_take. lia.
    - intros Heq i Hi. apply elem_of_seq in Hi.
      rewrite Heq at 1. unfold BitSet.get.
      rewrite lookup_take_lt by lia. done. }
  split; [exact H|]. intros Hsz. rewrite H, Hsz.
  unfold BitSet.size. by rewrite firstn_all.
Qed.

(** ** The transpose built by [init] *)

Lemma cnt_is_count_occ (j : nat) (row : list nat) :
  cnt (fun x => bool_decide (x = j)) row = count_occ Nat.eq_dec row j.
Proof.
  unfold cnt. induction row as [|x row IH]; simpl; [done|].
  destruct (Nat.eq_dec x j) as [->|Hne].
  - rewrite bool_decide_eq_true_2 by done. simpl. by rewrite IH.
  - rewrite bool_decide_eq_false_2 by done. exact IH.
Qed.

Lemma contrib_single heap (j r : nat) (rest : list nat) : forall i,
  contrib heap (fun x => bool_decide (x = j)) r i rest
  = if decide (i <= j < i + length rest)
    then count_occ Nat.eq_dec
           (default [] (rest !! (j - i) ≫= fun a => heap !! a)) r
    else 0.
Proof.
  induction rest as [|a rest IH]; intros i; simpl.
  - case_decide; [lia|done].
  - rewrite IH. destruct (decide (i = j)) as [->|Hne].
    + rewrite bool_decide_eq_true_2 by done. rewrite Nat.sub_diag. simpl.
      repeat case_decide; lia.
    + rewrite bool_decide_eq_false_2 by done. simpl.
      repeat case_decide; try lia.
      replace (j - i) with (S (j - S i)) by lia. reflexivity.
Qed.

Lemma Ri_count_transposed st st' rws ss cs pf p (r j : nat) :
  SPProblem_new st rws ss cs pf = Ok (p, st') ->
  count_occ Nat.eq_dec (row_at (Ri p) r) j
  = count_occ Nat.eq_dec (set_rows st' p j) r.
Proof.
  intros Hnew.
  destruct (SPProblem_new_inv _ _ _ _ _ _ _ Hnew)
    as (cl & total & _ & _ & Ei & Ep & _).
  assert (Hss : sets p = ss) by (rewrite Ep; done).
  rewrite <- cnt_is_count_occ.
  rewrite (init_loop_cnt _ _ _ _ _ _ _ _ _ r Ei).
  assert (H0 : cnt (fun x => bool_decide (x = j))
                 (row_at (replicate rws []) r) = 0).
  { unfold row_at. destruct (replicate rws [] !! r) eqn:E; [|done].
    by apply lookup_replicate in E as [-> _]. }
  rewrite H0, contrib_single. simpl. rewrite Nat.sub_0_r.
  unfold set_rows. rewrite Hss. case_decide as Hj; [done|].
  rewrite (proj2 (lookup_ge_None ss j)) by lia. done.
Qed.

(** X4: in a constructed problem [Ri] is the transpose of [sets]: set [j]
    occurs in [Ri[r]] as many times as row [r] occurs in [sets[j]], so
    [j] is listed for row [r] exactly when set [j] covers [r]. *)
Theorem Ri_is_transpose st st' rws ss cs pf p (r j : nat) :
  SPProblem_new st rws ss cs pf = Ok (p, st') ->
  count_occ Nat.eq_dec (row_at (Ri p) r) j
  = count_occ Nat.eq_dec (set_rows st' p j) r
  /\ (j ∈ row_at (Ri p) r <-> r ∈ set_rows st' p j).
Proof.
  intros Hnew.
  pose proof (Ri_count_transposed _ _ _ _ _ _ _ r j Hnew) as Hc.
  split; [exact Hc|].
  rewrite !list_elem_of_In, !(count_occ_In Nat.eq_dec), Hc. done.
Qed.

Lemma sorted_snoc (row : list nat) (i : nat) :
  StronglySorted le row -> Forall (fun x => x < S i) row ->
  StronglySorted le (row ++ [i]).
Proof.
  induction 1 as [|x row Hs IH Hx]; intros Hb; simpl.
  - repeat constructor.
  - inversion Hb as [|? ? Hxi Hrow]; subst. constructor; [by apply IH|].
    apply Forall_app. split; [done|]. constructor; [lia|constructor].
Qed.

Lemma push_rows_sorted R i rs R' :
  push_rows R i rs = Ok R' ->
  Forall (fun row => StronglySorted le row
                     /\ Forall (fun x => x < S i) row) R ->
  Forall (fun row => StronglySorted le row
                     /\ Forall (fun x => x < S i) row) R'.
Proof.
  revert R. induction rs as [|row rs IH]; intros R H HR; simpl in H.
  - by inversion H; subst.
  - destruct (R !! row) as [l|] eqn:E; [|discriminate].
    apply (IH _ H). apply Forall_insert; [done|].
    destruct (Forall_lookup_1 _ _ _ _ HR E) as [Hs Hb].
    split; [by apply sorted_snoc|].
    apply Forall_app. split; [done|]. constructor; [lia|constructor].
Qed.

Lemma init_loop_sorted heap R total i rest heap' R' total' :
  init_loop heap R total i rest = Ok (heap', R', total') ->
  Forall (fun row => StronglySorted le row
                     /\ Forall (fun x => x < i) row) R ->
  Forall (fun row => StronglySorted le row
                     /\ Forall (fun x => x < i + length rest) row) R'.
Proof.
  revert heap R total i. induction rest as [|a rest IH];
    intros heap R total i H HR; simpl in H.
  - inversion H; subst. simpl. by rewrite Nat.add_0_r.
  - destruct (heap !! a) as [arr|] eqn:E; [|discriminate].
    destruct (push_rows R i (sort arr)) as [R1|] eqn:EP; [|discriminate].
    simpl in H. apply IH in H.
    + simpl. by replace (i + S (length rest)) with (S i + length rest) by lia.
    + apply (push_rows_sorted _ _ _ _ EP).
      eapply Forall_impl; [exact HR|]. intros row [Hs Hb]. split; [done|].
      eapply Forall_impl; [exact Hb|]. intros x Hx. simpl in *. lia.
Qed.

(** X5: in a constructed problem every [Ri[r]] lists set indices below n
    in ascending order; when no set holds a row twice, no set index is
    listed twice for a row. *)
Theorem Ri_rows_ascending st st' rws ss cs pf p (r : nat) :
  SPProblem_new st rws ss cs pf = Ok (p, st') ->
  StronglySorted le (row_at (Ri p) r)
  /\ Forall (fun j => j < n p) (row_at (Ri p) r)
  /\ (sets_nodup st' p -> NoDup (row_at (Ri p) r)).
Proof.
  intros Hnew.
  destruct (SPProblem_new_inv _ _ _ _ _ _ _ Hnew)
    as (cl & total & _ & _ & Ei & Ep & _).
  assert (Hss : sets p = ss) by (rewrite Ep; done).
  pose proof (init_loop_sorted _ _ _ _ _ _ _ _ Ei) as HR.
  assert (H0 : Forall (fun row => StronglySorted le row
                                  /\ Forall (fun x => x < 0) row)
                 (replicate rws (@nil nat))).
  { apply Forall_replicate. split; constructor. }
  specialize (HR H0). simpl in HR.
  assert (Hrow : StronglySorted le (row_at (Ri p) r)
                 /\ Forall (fun j => j < n p) (row_at (Ri p) r)).
  { unfold row_at, n. rewrite Hss.
    destruct (Ri p !! r) as [row|] eqn:E; simpl.
    - exact (Forall_lookup_1 _ _ _ _ HR E).
    - split; constructor. }
  destruct Hrow as [Hs Hb]. split; [done|]. split; [done|].
  intros Hnd. apply NoDup_ListNoDup, (NoDup_count_occ Nat.eq_dec).
  intros j. rewrite (Ri_count_transposed _ _ _ _ _ _ _ r j Hnew).
  destruct (decide (j < n p)) as [Hj|Hj].
  - rewrite count_occ_nodup by by apply Hnd. case_bool_decide; lia.
  - unfold set_rows.
    rewrite (proj2 (lookup_ge_None (sets p) j)) by (unfold n in Hj; lia).
    simpl. lia.
Qed.

(** X6: when the numbers of sets and costs agree but some set holds a
    row index that is not below [rows], construction ends in a TypeError
    (the push on an entry of [Ri] that does not exist), not in the
    configuration error. *)
Theorem SPProblem_new_row_out_of_range st rws ss cs pf cl a arr r :
  costArrays st !! cs = Some cl ->
  length ss = length cl ->
  Forall (fun a' => is_Some (rowArrays st !! a')) ss ->
  a ∈ ss -> rowArrays st !! a = Some arr -> r ∈ arr -> rws <= r ->
  SPProblem_new st rws ss cs pf = Err TypeError.
Proof.
  intros Ec El Hall Ha Harr Hr Hge.
  unfold SPProblem_new, init. rewrite Ec.
  apply Nat.eqb_eq in El. rewrite El. simpl.
  destruct (init_loop (rowArrays st) (replicate rws []) 0 0 ss)
    as [[[heap' R] total]|e] eqn:Ei; simpl.
  - exfalso.
    pose proof (init_loop_heap _ _ _ _ _ _ _ _ Ei) as (Hin & _ & _).
    destruct (Hin a Ha) as (arr0 & H0 & H1).
    assert (arr0 = arr) by congruence. subst arr0.
    assert (Hr' : r ∈ default [] (heap' !! a)).
    { rewrite H1. simpl. by rewrite sort_perm. }
    pose proof (init_loop_rows_lt _ _ _ _ _ _ _ _ a r Ei Ha Hr') as Hlt.
    rewrite length_replicate in Hlt. lia.
  - apply init_loop_err in Ei. by subst.
Qed.

(** ** Totals *)

Lemma total_entries_insert (R : list (list nat)) row l l' :
  R !! row = Some l ->
  total_entries (<[row := l']> R) + length l = total_entries R + length l'.
Proof.
  unfold total_entries. revert row.
  induction R as [|x R IH]; intros row H; [done|].
  destruct row as [|row]; simpl in *.
  - inversion H; subst. lia.
  - specialize (IH row H). lia.
Qed.

Lemma push_rows_total_entries R i rs R' :
  push_rows R i rs = Ok R' ->
  total_entries R' = total_entries R + length rs.
Proof.
  revert R. induction rs as [|row rs IH]; intros R H; simpl in H.
  - inversion H; subst. simpl. lia.
  - destruct (R !! row) as [l|] eqn:E; [|discriminate].
    rewrite (IH _ H).
    pose proof (total_entries_insert R row l (l ++ [i]) E) as Hi.
    rewrite length_app in Hi. simpl in *. lia.
Qed.

Lemma init_loop_length_at heap R total i rest heap' R' total' a :
  init_loop heap R total i rest = Ok (heap', R', total') ->
  length (default [] (heap' !! a)) = length (default [] (heap !! a)).
Proof.
  intros H. apply init_loop_heap in H as (Hin & Hout & _).
  destruct (decide (a ∈ rest)) as [Hm|Hm].
  - destruct (Hin a Hm) as (arr & E1 & E2). rewrite E1, E2. simpl.
    apply Permutation_length, sort_perm.
  - by rewrite (Hout a Hm).
Qed.

Lemma init_loop_totals heap R total i rest heap' R' total' :
  init_loop heap R total i rest = Ok (heap', R', total') ->
  total' = total
           + sum_list (map (fun a => length (default [] (heap' !! a))) rest)
  /\ total_entries R' + total = total_entries R + total'.
Proof.
  revert heap R total i. induction rest as [|a rest IH];
    intros heap R total i H; simpl in H.
  - inversion H; subst. simpl. lia.
  - destruct (heap !! a) as [arr|] eqn:E; [|discriminate].
    destruct (push_rows R i (sort arr)) as [R1|] eqn:EP; [|discriminate].
    simpl in H. pose proof (init_loop_length_at _ _ _ _ _ _ _ _ a H) as Hl.
    rewrite list_lookup_insert_eq in Hl by by eapply lookup_lt_Some.
    simpl in Hl. apply IH in H as [H1 H2].
    apply push_rows_total_entries in EP. simpl. lia.
Qed.

Lemma total_entries_replicate (k : nat) :
  total_entries (replicate k (@nil nat)) = 0.
Proof. unfold total_entries. induction k as [|k IH]; simpl; done. Qed.

Lemma map_lookup_seq {B} (g : option nat -> B) (l : list nat) :
  map (fun j => g (l !! j)) (seq 0 (length l)) = map (fun a => g (Some a)) l.
Proof.
  induction l as [|x l IH]; simpl; [done|].
  f_equal. rewrite <- seq_shift, map_map. exact IH.
Qed.

(** X7: in a constructed problem [Ri] has as many entries in all as the
    sets have row indices in all, and [averageNonZeros] is that total
    divided by n (NaN when there is no set). *)
Theorem init_keeps_total_and_average st st' rws ss cs pf p :
  SPProblem_new st rws ss cs pf = Ok (p, st') ->
  total_entries (Ri p)
  = sum_list (map (fun j => length (set_rows st' p j)) (seq 0 (n p)))
  /\ averageNonZeros p
     = num_div (Fin (Qnat (total_entries (Ri p)))) (Fin (Qnat (n p)))
  /\ (n p = 0 -> averageNonZeros p = NaN).
Proof.
  intros Hnew.
  destruct (SPProblem_new_inv _ _ _ _ _ _ _ Hnew)
    as (cl & total & _ & _ & Ei & Ep & _).
  assert (Hss : sets p = ss) by (rewrite Ep; done).
  destruct (init_loop_totals _ _ _ _ _ _ _ _ Ei) as [Ht He].
  rewrite total_entries_replicate in He. simpl in Ht, He.
  assert (Htot : total_entries (Ri p) = total) by lia.
  assert (Havg : averageNonZeros p
                 = num_div (Fin (Qnat (total_entries (Ri p))))
                           (Fin (Qnat (n p)))).
  { rewrite Htot. unfold n. rewrite Hss. rewrite Ep. done. }
  split; [|split; [exact Havg|]].
  - rewrite Htot, Ht. unfold set_rows, n. rewrite Hss.
    rewrite (map_lookup_seq
               (fun o => length (default [] (o ≫= fun a => rowArrays st' !! a)))
               ss).
    done.
  - intros Hn. rewrite Havg.
    assert (Hz : total_entries (Ri p) = 0).
    { rewrite Htot, Ht. unfold n in Hn. rewrite Hss in Hn.
      destruct ss; [done|discriminate]. }
    rewrite Hz, Hn. reflexivity.
Qed.

(** ** The empty selection *)




(** ** More on the local search *)







(** X11: with the Random strategy [selectRow] reads one draw; on a
    problem with no row it ends in a TypeError (the row looked up does
    not exist); otherwise it returns, for the row the draw picks, the
    sets listed for that row that the solution selects, in the order of
    the list. *)
Theorem selectRow_Random_draws_a_row p (s : BitSet.t) d t :
  length (Ri p) = rows p ->
  (rows p = 0 -> selectRow p s Random (d :: t) = Err TypeError)
  /\ (0 < rows p ->
      exists k, k < rows p
        /\ Z.of_nat k = randInt_of d 0 (Z.of_nat (rows p))
        /\ selectRow p s Random (d :: t)
           = Ok (List.filter (BitSet.get s) (row_at (Ri p) k), t)).
Proof.
  intros Hlen. unfold selectRow, bind, randInt, zlookup. split.
  - intros H0. rewrite H0 in *. 
    assert (HR : Ri p = []) by by apply length_zero_iff_nil.
    rewrite HR. cbv beta iota. change (Z.of_nat 0) with 0%Z.
    destruct (randInt_of d 0 0 <? 0)%Z; [done|]. by rewrite lookup_nil.
  - intros Hpos.
    pose proof (randInt_of_range d 0 (Z.of_nat (rows p)) ltac:(lia)) as Hk.
    exists (Z.to_nat (randInt_of d 0 (Z.of_nat (rows p)))).
    split; [lia|]. split; [lia|].
    assert (Hz : (randInt_of d 0 (Z.of_nat (rows p)) <? 0)%Z = false)
      by (apply Z.ltb_ge; lia).
    rewrite Hz. unfold row_at.
    destruct (lookup_lt_is_Some_2 (Ri p)
                (Z.to_nat (randInt_of d 0 (Z.of_nat (rows p))))
                ltac:(lia)) as [row Hrow].
    rewrite Hrow. done.
Qed.

(** ** More on the crossover of SPProblem *)

Lemma randInt_of_point (d : draw) (a : Z) : randInt_of d a a = a.
Proof.
  unfold randInt_of. rewrite Z.sub_diag.
  assert (H : Qfloor (draw_val d * inject_Z 0) = 0%Z).
  { transitivity (Qfloor (inject_Z 0)); [|apply Qfloor_Z].
    apply Qfloor_comp. change (inject_Z 0) with 0%Q. lra. }
  rewrite H. lia.
Qed.

Lemma mutated_ok (pMutation : num) (bit : bool) (t : tape) v t' :
  mutated pMutation bit t = Ok (v, t') -> length t = S (length t').
Proof.
  unfold mutated, bind, random, ret. destruct t as [|d t]; [discriminate|].
  intros H. by inversion H; subst.
Qed.

Lemma crossover_loop_sizes p (a b : BitSet.t) pMutation x distance idx :
  forall (ab ba : BitSet.t) t ab' ba' t',
  crossover_loop p a b pMutation x distance idx ab ba t
  = Ok ((ab', ba'), t') ->
  BitSet.size ab' = BitSet.size ab /\ BitSet.size ba' = BitSet.size ba
  /\ length t = length t' + 2 * length idx.
Proof.
  induction idx as [|i idx IH]; intros ab ba t ab' ba' t' H;
    cbn [crossover_loop] in H.
  - unfold ret in H. inversion H; subst. simpl. lia.
  - destruct (inRange p x distance (Z.of_nat i) x distance);
      unfold bind in H;
      destruct (mutated pMutation _ t) as [[v1 t1]|] eqn:E1;
        try discriminate;
      destruct (mutated pMutation _ t1) as [[v2 t2]|] eqn:E2;
        try discriminate;
      apply mutated_ok in E1; apply mutated_ok in E2;
      apply IH in H as (H1 & H2 & H3); rewrite size_set in H1, H2;
      simpl; (split; [done|]); (split; [done|]); lia.
Qed.

Lemma draw_distance_draws (size : Z) (t : tape) d t' :
  draw_distance size t = Ok (d, t') -> length t' < length t.
Proof.
  induction t as [|dr t IH]; cbn [draw_distance]; [discriminate|].
  destruct (randInt_of dr 0 (size - 1) =? 0)%Z.
  - intros H. apply IH in H. simpl. lia.
  - intros H. inversion H; subst. simpl. lia.
Qed.

(** X12: on parents of one size and whatever the draws, a call of
    [crossover] that returns gives two children of the size of the
    parents, and has read at least two draws for each bit and two more
    for the start and the length. *)
Theorem crossover_children_sizes p (a b : BitSet.t) t ab ba t' :
  BitSet.size a = BitSet.size b ->
  crossover p a b t = Ok ((ab, ba), t') ->
  BitSet.size ab = BitSet.size a /\ BitSet.size ba = BitSet.size b
  /\ length t' + 2 * BitSet.size a + 2 <= length t.
Proof.
  intros _. unfold crossover, bind, randInt. intros H.
  destruct t as [|dx t]; [discriminate|].
  destruct (draw_distance (Z.of_nat (BitSet.size a)) t)
    as [[distance t1]|] eqn:Ed; [|discriminate].
  apply draw_distance_draws in Ed.
  apply crossover_loop_sizes in H as (H1 & H2 & H3).
  rewrite size_create in H1, H2. rewrite length_seq in H3.
  split; [done|]. split; [done|]. simpl. lia.
Qed.

Lemma draw_distance_small (size : Z) (t : tape) :
  (1 <= size <= 2)%Z -> draw_distance size t = Err OutOfDraws.
Proof.
  intros Hs. induction t as [|d t IH]; cbn [draw_distance]; [done|].
  assert (H0 : randInt_of d 0 (size - 1) = 0%Z).
  { destruct (decide (size = 1%Z)) as [->|Hne].
    - apply randInt_of_point.
    - pose proof (randInt_of_range d 0 (size - 1) ltac:(lia)). lia. }
  rewrite H0. exact IH.
Qed.

(** X13: on parents of one or two bits [crossover] never returns: the
    length it draws from [0, size - 1) is always 0, so it keeps drawing
    until the draws run out. *)
Theorem crossover_small_never_returns p (a b : BitSet.t) (t : tape) :
  1 <= BitSet.size a <= 2 ->
  crossover p a b t = Err OutOfDraws.
Proof.
  intros Hs. unfold crossover, bind, randInt.
  destruct t as [|dx t]; [done|].
  rewrite draw_distance_small by lia. done.
Qed.

(** X14: for a start [x] and a length [distance] as [crossover] draws
    them on n bits, the indices that [inRange] accepts are, when
    [x + distance < n], the [distance - 1] indices after [x], and
    otherwise the indices after [x] up to the end together with the
    indices from 0 to [x + distance - n]; the start [x] itself is never
    among them. *)
Theorem inRange_window p (x distance i : Z) :
  (0 <= x < Z.of_nat (n p))%Z ->
  (1 <= distance < Z.of_nat (n p))%Z ->
  (0 <= i < Z.of_nat (n p))%Z ->
  (inRange p x distance i x distance = true
   <-> if (x + distance <? Z.of_nat (n p))%Z
       then (x < i < x + distance)%Z
       else (x < i \/ i <= x + distance - Z.of_nat (n p))%Z)
  /\ inRange p x distance x x distance = false.
Proof.
  intros Hx Hd Hi. unfold inRange.
  assert (Hn0 : (Z.of_nat (n p) =? 0)%Z = false) by (apply Z.eqb_neq; lia).
  rewrite Hn0. rewrite Z.ltb_irrefl.
  destruct (x + distance <? Z.of_nat (n p))%Z eqn:E.
  - apply Z.ltb_lt in E.
    assert (E' : (Z.of_nat (n p) <=? x + distance)%Z = false)
      by (apply Z.leb_gt; lia).
    rewrite E'. simpl. rewrite orb_false_r, andb_true_iff, !Z.ltb_lt. done.
  - apply Z.ltb_ge in E.
    assert (E' : (Z.of_nat (n p) <=? x + distance)%Z = true)
      by (apply Z.leb_le; lia).
    assert (Hrem : Z.rem (x + distance) (Z.of_nat (n p))
                   = (x + distance - Z.of_nat (n p))%Z).
    { rewrite Z.rem_mod_nonneg by lia.
      replace (x + distance)%Z
        with ((x + distance - Z.of_nat (n p)) + 1 * Z.of_nat (n p))%Z at 1
        by lia.
      rewrite Z_mod_plus_full. apply Z.mod_small. lia. }
    rewrite E', Hrem. simpl. split.
    + rewrite orb_true_iff, andb_true_iff, !Z.ltb_lt, Z.leb_le.
      split; [intros [[? ?]|?]; lia|].
      intros [?|?]; [left; lia|by right].
    + apply Z.leb_gt. lia.
Qed.

Lemma mutated_quiet (pMutation : num) (bit : bool) d t :
  num_lt (Fin (draw_val d)) pMutation = false ->
  mutated pMutation bit (d :: t) = Ok (bit, t).
Proof. intros H. unfold mutated, bind, random, ret. by rewrite H. Qed.

Lemma crossover_loop_quiet p (a b : BitSet.t) pMutation x distance idx :
  forall (ab ba : BitSet.t) t,
  quiet pMutation t -> length t = 2 * length idx ->
  Forall (fun i => i < BitSet.size ab /\ i < BitSet.size ba) idx ->
  exists ab' ba',
    crossover_loop p a b pMutation x distance idx ab ba t
    = Ok ((ab', ba'), [])
    /\ BitSet.size ab' = BitSet.size ab /\ BitSet.size ba' = BitSet.size ba
    /\ forall i,
         (i ∈ idx ->
          BitSet.get ab' i
          = (if inRange p x distance (Z.of_nat i) x distance
             then BitSet.get b i else BitSet.get a i)
          /\ BitSet.get ba' i
             = (if inRange p x distance (Z.of_nat i) x distance
                then BitSet.get a i else BitSet.get b i))
         /\ (i ∉ idx ->
             BitSet.get ab' i = BitSet.get ab i
             /\ BitSet.get ba' i = BitSet.get ba i).
Proof.
  induction idx as [|i idx IH]; intros ab ba t Hq Hlen Hidx;
    cbn [crossover_loop].
  - destruct t; [|discriminate]. exists ab, ba. unfold ret.
    split; [done|]. split; [done|]. split; [done|].
    intros i. split; [by intros ?%elem_of_nil|done].
  - destruct t as [|d1 [|d2 t]]; simpl in Hlen; try lia.
    inversion Hq as [|? ? Hq1 Hq']; subst.
    inversion Hq' as [|? ? Hq2 Hq'']; subst.
    inversion Hidx as [|? ? [Hi1 Hi2] Hidx']; subst.
    set (v1 := if inRange p x distance (Z.of_nat i) x distance
               then BitSet.get b i else BitSet.get a i).
    set (v2 := if inRange p x distance (Z.of_nat i) x distance
               then BitSet.get a i else BitSet.get b i).
    destruct (IH (BitSet.set ab i v1) (BitSet.set ba i v2) t Hq'')
      as (ab' & ba' & Hrun & Hs1 & Hs2 & Hbits).
    { lia. }
    { rewrite !size_set. done. }
    exists ab', ba'. rewrite !size_set in Hs1, Hs2.
    split.
    + unfold v1, v2 in Hrun.
      destruct (inRange p x distance (Z.of_nat i) x distance);
        unfold bind; rewrite !mutated_quiet by done; exact Hrun.
    + split; [done|]. split; [done|]. intros j. split.
      * intros Hj. destruct (decide (j ∈ idx)) as [Hm|Hm];
          [by apply Hbits|].
        apply elem_of_cons in Hj as [->|?]; [|done].
        destruct (Hbits i) as [_ Hout]. destruct (Hout Hm) as [-> ->].
        by rewrite !get_set_eq.
      * intros Hj. apply not_elem_of_cons in Hj as [Hne Hj].
        destruct (Hbits j) as [_ Hout]. destruct (Hout Hj) as [-> ->].
        by rewrite !get_set_ne.
Qed.

(** X15: on parents of one size, when the draws after the start and the
    length (zero lengths being drawn again) are as many as two for each
    bit and none of them is below the mutation probability 1/n,
    [crossover] returns children in which each bit that [inRange]
    accepts comes from the other parent and every other bit from the
    own parent. *)
Theorem crossover_without_mutation p (a b : BitSet.t) dx zeros dd muts :
  BitSet.size a = BitSet.size b ->
  Forall (fun d =>
            randInt_of d 0 (Z.of_nat (BitSet.size a) - 1) = 0%Z) zeros ->
  randInt_of dd 0 (Z.of_nat (BitSet.size a) - 1) <> 0%Z ->
  length muts = 2 * BitSet.size a ->
  quiet (num_div (Fin 1) (Fin (Qnat (n p)))) muts ->
  exists ab ba,
    crossover p a b (dx :: zeros ++ dd :: muts) = Ok ((ab, ba), [])
    /\ BitSet.size ab = BitSet.size a /\ BitSet.size ba = BitSet.size b
    /\ forall i, i < BitSet.size a ->
         let x := randInt_of dx 0 (Z.of_nat (BitSet.size a)) in
         let distance := randInt_of dd 0 (Z.of_nat (BitSet.size a) - 1) in
         BitSet.get ab i
         = (if inRange p x distance (Z.of_nat i) x distance
            then BitSet.get b i else BitSet.get a i)
         /\ BitSet.get ba i
            = (if inRange p x distance (Z.of_nat i) x distance
               then BitSet.get a i else BitSet.get b i).
Proof.
  intros Hab Hz Hdd Hlen Hq.
  unfold crossover, bind, randInt.
  assert (Hdist : draw_distance (Z.of_nat (BitSet.size a))
                    (zeros ++ dd :: muts)
                  = Ok (randInt_of dd 0 (Z.of_nat (BitSet.size a) - 1), muts)).
  { induction Hz as [|d zeros Hd _ IH]; cbn [app draw_distance].
    - apply Z.eqb_neq in Hdd. by rewrite Hdd.
    - rewrite Hd. exact IH. }
  rewrite Hdist.
  destruct (crossover_loop_quiet p a b
              (num_div (Fin 1) (Fin (Qnat (n p))))
              (randInt_of dx 0 (Z.of_nat (BitSet.size a)))
              (randInt_of dd 0 (Z.of_nat (BitSet.size a) - 1))
              (seq 0 (BitSet.size a))
              (BitSet.create (BitSet.size a)) (BitSet.create (BitSet.size b))
              muts Hq)
    as (ab & ba & Hrun & Hs1 & Hs2 & Hbits).
  { by rewrite length_seq. }
  { apply Forall_forall. intros i Hi. apply elem_of_seq in Hi.
    rewrite !size_create. lia. }
  exists ab, ba. rewrite size_create in Hs1, Hs2.
  split; [exact Hrun|]. split; [done|]. split; [done|].
  intros i Hi. apply (Hbits i). apply elem_of_seq. lia.
Qed.

(** ** More on the two-point crossover *)

(** The window of [tpx] in closed form: the positions whose distance
    from the start, going round, is below the number of steps. *)
Lemma tpx_window_iff (size : nat) (x : Z) (k j : nat) :
  (0 <= x < Z.of_nat size)%Z -> j < size ->
  j ∈ tpx_window size x (seq 0 k)
  <-> ((Z.of_nat j - x) mod Z.of_nat size < Z.of_nat k)%Z.
Proof.
  intros Hx Hj. unfold tpx_window. rewrite list_elem_of_fmap. split.
  - intros (i & -> & Hi). apply elem_of_seq in Hi.
    rewrite Z.rem_mod_nonneg by lia.
    rewrite Z2Nat.id by (apply Z.mod_pos_bound; lia).
    rewrite Zminus_mod_idemp_l.
    replace (x + Z.of_nat i - x)%Z with (Z.of_nat i) by lia.
    pose proof (Z.mod_le (Z.of_nat i) (Z.of_nat size) ltac:(lia) ltac:(lia)).
    lia.
  - intros Hlt.
    pose proof (Z.mod_pos_bound (Z.of_nat j - x) (Z.of_nat size) ltac:(lia))
      as Hb.
    exists (Z.to_nat ((Z.of_nat j - x) mod Z.of_nat size)). split.
    + rewrite Z2Nat.id by lia. rewrite Z.rem_mod_nonneg by lia.
      rewrite Zplus_mod_idemp_r.
      replace (x + (Z.of_nat j - x))%Z with (Z.of_nat j) by lia.
      rewrite Z.mod_small by lia. lia.
    + apply elem_of_seq. lia.
Qed.

Lemma tpx_run (a b : BitSet.t) (xFactor : Q) (d : draw) (t : tape) :
  BitSet.size a = BitSet.size b ->
  exists ab ba,
    tpx a b xFactor (d :: t) = Ok ((ab, ba), t)
    /\ BitSet.size ab = BitSet.size a /\ BitSet.size ba = BitSet.size a
    /\ forall j, j < BitSet.size a ->
         if (((Z.of_nat j - randInt_of d 0 (Z.of_nat (BitSet.size a)))
              mod Z.of_nat (BitSet.size a)
              <? Z.of_nat (Z.to_nat
                             (Qceiling (Qnat (BitSet.size a) * xFactor))))%Z)
         then BitSet.get ab j = BitSet.get b j
              /\ BitSet.get ba j = BitSet.get a j
         else BitSet.get ab j = BitSet.get a j
              /\ BitSet.get ba j = BitSet.get b j.
Proof.
  intros Hab. unfold tpx, bind, randInt, ret, BitSet.copy.
  set (x := randInt_of d 0 (Z.of_nat (BitSet.size a))).
  set (k := Z.to_nat (Qceiling (Qnat (BitSet.size a) * xFactor))).
  destruct (tpx_loop a b x (seq 0 k) a b) as [ab ba] eqn:E.
  exists ab, ba. split; [done|].
  destruct (tpx_loop_spec a b x _ Hab a b ab ba eq_refl (eq_sym Hab) E)
    as (Hs1 & Hs2 & Hbits).
  split; [done|]. split; [done|].
  intros j Hj.
  assert (Hx : (0 <= x < Z.of_nat (BitSet.size a))%Z).
  { pose proof (randInt_of_range d 0 (Z.of_nat (BitSet.size a))
                  ltac:(lia)). fold x in H. lia. }
  destruct (Hbits j) as [Hin Hout].
  destruct (_ <? _)%Z eqn:El.
  - apply Z.ltb_lt in El. apply Hin. by apply tpx_window_iff.
  - apply Z.ltb_ge in El. apply Hout. rewrite tpx_window_iff by done. lia.
Qed.


(** X17: for parents of one size, crossing the two children of [tpx]
    again with the same draw and the same xFactor gives back the two
    parents. *)
Theorem tpx_twice_restores_parents (a b : BitSet.t) (xFactor : Q)
    (d : draw) (t1 t2 : tape) :
  BitSet.size a = BitSet.size b ->
  exists ab ba,
    tpx a b xFactor (d :: t1) = Ok ((ab, ba), t1)
    /\ tpx ab ba xFactor (d :: t2) = Ok ((a, b), t2).
Proof.
  intros Hab.
  destruct (tpx_run a b xFactor d t1 Hab)
    as (ab & ba & Hrun & Hs1 & Hs2 & Hb).
  exists ab, ba. split; [done|].
  destruct (tpx_run ab ba xFactor d t2 ltac:(congruence))
    as (a' & b' & Hrun' & Hs1' & Hs2' & Hb').
  rewrite Hrun'. rewrite Hs1 in Hs1', Hs2', Hb'.
  assert (Hget : forall j, BitSet.get a' j = BitSet.get a j
                           /\ BitSet.get b' j = BitSet.get b j).
  { intros j. destruct (decide (j < BitSet.size a)) as [Hj|Hj].
    - specialize (Hb j Hj). specialize (Hb' j Hj).
      destruct (_ <? _)%Z; destruct Hb as [H1 H2], Hb' as [H3 H4];
        split; congruence.
    - rewrite !get_ge by lia. done. }
  assert (a' = a) as ->.
  { apply bitset_ext; [congruence|]. intros j. by destruct (Hget j). }
  assert (b' = b) as ->.
  { apply bitset_ext; [congruence|]. intros j. by destruct (Hget j). }
  done.
Qed.

(** ** More on the driver *)

Lemma zlookup_Some {A} (l : list A) (k : Z) (x : A) :
  zlookup l k = Some x ->
  (0 <= k < Z.of_nat (length l))%Z /\ l !! Z.to_nat k = Some x /\ x ∈ l.
Proof.
  unfold zlookup. destruct (k <? 0)%Z eqn:E; [discriminate|].
  apply Z.ltb_ge in E. intros H. pose proof (lookup_lt_Some _ _ _ H).
  split; [lia|]. split; [done|]. by eapply list_elem_of_lookup_2.
Qed.

Lemma crossover_sizes p (a b : BitSet.t) t ab ba t' :
  crossover p a b t = Ok ((ab, ba), t') ->
  BitSet.size ab = BitSet.size a /\ BitSet.size ba = BitSet.size b.
Proof.
  unfold crossover, bind, randInt. intros H.
  destruct t as [|dx t]; [discriminate|].
  destruct (draw_distance (Z.of_nat (BitSet.size a)) t)
    as [[distance t1]|]; [|discriminate].
  apply crossover_loop_sizes in H as (H1 & H2 & _).
  by rewrite size_create in H1, H2.
Qed.

Lemma generate_loop_size p (nz : num) :
  forall (t : tape) (s : BitSet.t) (i : Z) s' t',
  generate_loop p nz t s i = Ok (s', t') -> BitSet.size s' = BitSet.size s.
Proof.
  induction t as [|d t IH]; intros s i s' t' H; cbn [generate_loop] in H;
    destruct (num_lt (Fin (inject_Z i)) nz);
    try discriminate; try (by inversion H).
  destruct (BitSet.get s _); apply IH in H; [done|].
  by rewrite size_set in H.
Qed.

Lemma generate_size p (t : tape) s t' :
  generate p t = Ok (s, t') -> BitSet.size s = n p.
Proof.
  unfold generate. intros H. apply generate_loop_size in H.
  by rewrite size_create in H.
Qed.

Lemma selected_count_le (s : BitSet.t) : selected_count s <= BitSet.size s.
Proof.
  unfold selected_count, BitSet.size.
  induction s as [|b s IH]; simpl; [lia|]. destruct b; simpl; lia.
Qed.

Lemma generate_loop_never p (nz : num) :
  0 < n p ->
  nz = PInf \/ (exists q, nz = Fin q /\ (Qnat (n p) < q)%Q) ->
  forall (t : tape) (s : BitSet.t) (i : Z),
  BitSet.size s = n p -> Z.of_nat (selected_count s) = i ->
  generate_loop p nz t s i = Err OutOfDraws.
Proof.
  intros Hn Hnz.
  assert (Hcond : forall s : BitSet.t, BitSet.size s = n p ->
            num_lt (Fin (inject_Z (Z.of_nat (selected_count s)))) nz = true).
  { intros s Hs. destruct Hnz as [->|(q & -> & Hq)]; [done|].
    cbn [num_lt]. apply Qltb_lt.
    pose proof (selected_count_le s) as Hle. rewrite Hs in Hle.
    assert (inject_Z (Z.of_nat (selected_count s)) <= Qnat (n p))%Q.
    { unfold Qnat. rewrite <- Zle_Qle. lia. }
    lra. }
  induction t as [|d t IH]; intros s i Hs Hi; cbn [generate_loop];
    subst i; rewrite Hcond by done; [done|].
  pose proof (randInt_of_range d 0 (Z.of_nat (n p)) ltac:(lia)) as Hr.
  destruct (BitSet.get s _) eqn:Eg.
  - apply IH; [done|lia].
  - apply IH; [by rewrite size_set|].
    rewrite selected_count_set; [lia| |done]. lia.
Qed.

(** The target is the double of the source: with seventeen rows in seven
    sets that partition them it is 7 + 2^-50, above the seven sets, and
    [generate] never returns. *)
Example generate_target_is_rounded (t : tape) :
  SPProblem_new ExMore.seven_store 17 [0; 1; 2; 3; 4; 5; 6] 0 1
  = ExMore.seven_built
  /\ n ExMore.seven_problem = 7
  /\ nonZero ExMore.seven_problem
     = Fin (7881299347898369 # 1125899906842624)
  /\ generate ExMore.seven_problem t = Err OutOfDraws.
Proof.
  split; [vm_compute; reflexivity|]. split; [reflexivity|].
  split; [vm_compute; reflexivity|].
  unfold generate. apply generate_loop_never.
  - vm_compute. lia.
  - right. exists (7881299347898369 # 1125899906842624).
    split; vm_compute; reflexivity.
  - apply size_create.
  - by rewrite selected_count_create.
Qed.

(** X18: on a problem with at least one set whose target
    rows / averageNonZeros is above the number of sets, or infinite,
    [generate] never returns: whatever the draws, it reads all of them
    and asks for more. *)
Theorem generate_never_returns_above_n p (t : tape) :
  0 < n p ->
  nonZero p = PInf \/ (exists q, nonZero p = Fin q /\ (Qnat (n p) < q)%Q) ->
  generate p t = Err OutOfDraws.
Proof.
  intros Hn Hnz. unfold generate.
  apply generate_loop_never; [done|done|apply size_create|].
  by rewrite selected_count_create.
Qed.

Section DriverMore.
Variable st : Store.
Variable problem : SPProblem.
Variables popSize genN improvements : nat.
Variable improveS : ImprovementStrategy.
Variable rowSelectionS : RowSelectionStrategy.
Variables selRate xRate : Q.

Local Abbreviation val := (value st problem).
Local Abbreviation improve_k :=
  (improve_times st problem improveS rowSelectionS).
Local Abbreviation sized :=
  (Forall (fun s : BitSet.t => BitSet.size s = n problem)).





Lemma binaryTournament_range (pop : list BitSet.t) da db w :
  binaryTournament_of st problem pop da db = Ok w ->
  (0 <= w < Z.of_nat (length pop))%Z.
Proof.
  unfold binaryTournament_of. cbv zeta.
  destruct (zlookup pop (randInt_of da _ _)) as [sa|] eqn:Ea; [|discriminate].
  destruct (zlookup pop (randInt_of db _ _)) as [sb|] eqn:Eb; [|discriminate].
  apply zlookup_Some in Ea as [Ha _]. apply zlookup_Some in Eb as [Hb _].
  destruct (Qltb _ _); intros H; inversion H; subst; done.
Qed.

Lemma getCandidates_loop_spec (pop : list BitSet.t) (nc : num) :
  forall (k : nat) (t : tape) (cands sel : list Z) t',
  length t <= k ->
  getCandidates_loop st problem pop nc t cands = Ok (sel, t') ->
  NoDup cands ->
  Forall (fun c => (0 <= c < Z.of_nat (length pop))%Z) cands ->
  NoDup sel
  /\ Forall (fun c => (0 <= c < Z.of_nat (length pop))%Z) sel
  /\ num_lt (Fin (Qnat (length sel))) nc = false
  /\ (sel = cands \/ num_lt (Fin (Qnat (length sel - 1))) nc = true)
  /\ length t' + 2 * length sel <= length t + 2 * length cands.
Proof.
  induction k as [|k IH]; intros t cands sel t' Hk H Hnd Hin.
  - destruct t; [|simpl in Hk; lia]. cbn [getCandidates_loop] in H.
    destruct (num_lt (Fin (Qnat (length cands))) nc) eqn:E; [discriminate|].
    inversion H; subst.
    split; [done|]. split; [done|]. split; [done|]. split; [by left|lia].
  - destruct t as [|da [|db t]]; cbn [getCandidates_loop] in H;
      destruct (num_lt (Fin (Qnat (length cands))) nc) eqn:E;
      try discriminate;
      try (inversion H; subst;
           split; [done|]; split; [done|]; split; [done|];
           split; [by left|lia]).
    destruct (binaryTournament_of st problem pop da db) as [c|] eqn:Eb;
      [|discriminate].
    apply binaryTournament_range in Eb.
    simpl in Hk. case_bool_decide as Hc.
    + apply IH in H as (H1 & H2 & H3 & H4 & H5); [|lia|done..].
      split; [done|]. split; [done|]. split; [done|]. split; [done|].
      simpl. lia.
    + apply IH in H as (H1 & H2 & H3 & H4 & H5); [|lia|..].
      * split; [done|]. split; [done|]. split; [done|].
        rewrite length_app in H5. simpl in H5. split; [|simpl; lia].
        right. destruct H4 as [->|H4]; [|done].
        rewrite length_app. simpl.
        by replace (length cands + 1 - 1) with (length cands) by lia.
      * apply NoDup_app. split; [done|]. split; [|apply NoDup_singleton].
        intros x Hx Hx'. apply list_elem_of_singleton in Hx'. by subst.
      * apply Forall_app. split; [done|]. by apply Forall_singleton.
Qed.

Lemma num_lt_nat_Z (k : nat) (f : Z) :
  num_lt (Fin (Qnat k)) (Fin (inject_Z f)) = true <-> (Z.of_nat k < f)%Z.
Proof.
  cbn [num_lt]. rewrite Qltb_lt. unfold Qnat. by rewrite <- Zlt_Qlt.
Qed.

(** X21: a call of [getCandidates] that returns gives floor(m) indices
    of members, where m is the double that the product popSize * selRate
    gives (none when m is negative or the product overflows to
    -Infinity; it cannot return when the product is +Infinity); no two
    of the indices are equal and at least two draws were read for each,
    so it cannot return either when more candidates are asked for than
    the population has members. *)
Theorem getCandidates_distinct_members (pop : list BitSet.t)
    (t : tape) sel t' :
  getCandidates st problem popSize selRate pop t = Ok (sel, t') ->
  NoDup sel
  /\ Forall (fun c => exists s, zlookup pop c = Some s) sel
  /\ ((exists m, num_mul (Fin (Qnat popSize)) (Fin selRate) = Fin m
                 /\ length sel = Z.to_nat (Qfloor m))
      \/ (num_mul (Fin (Qnat popSize)) (Fin selRate) = NInf /\ sel = []))
  /\ length sel <= length pop
  /\ length t' + 2 * length sel <= length t.
Proof.
  unfold getCandidates. intros H.
  apply (getCandidates_loop_spec pop _ (length t)) in H
    as (Hnd & Hin & Hstop & Hlast & Hdraws);
    [|done|apply NoDup_nil_2|apply Forall_nil_2].
  split; [done|].
  split; [|split; [|split; [|simpl in Hdraws; lia]]].
  - eapply Forall_impl; [exact Hin|]. intros c Hc. simpl in Hc.
    unfold zlookup. assert (E : (c <? 0)%Z = false) by (apply Z.ltb_ge; lia).
    rewrite E. apply lookup_lt_is_Some_2. lia.
  - destruct (num_mul (Fin (Qnat popSize)) (Fin selRate)) as [m| | |] eqn:Em.
    + left. exists m. split; [done|]. cbn [num_floor] in Hstop, Hlast.
      apply not_true_iff_false in Hstop. rewrite num_lt_nat_Z in Hstop.
      destruct Hlast as [->|Hlast]; [simpl in *; lia|].
      apply num_lt_nat_Z in Hlast. lia.
    + discriminate.
    + right. split; [done|]. by destruct Hlast as [->|Hlast].
    + cbn [num_mul] in Em. unfold round64 in Em.
      repeat match type of Em with
             | context [if ?c then _ else _] => destruct c
             end; discriminate.
  - assert (Hsub : sel ⊆+ (Z.of_nat <$> seq 0 (length pop))).
    { apply NoDup_submseteq; [done|]. intros c Hc.
      rewrite Forall_forall in Hin. specialize (Hin c Hc). simpl in Hin.
      apply list_elem_of_fmap. exists (Z.to_nat c).
      split; [lia|]. apply elem_of_seq. lia. }
    apply submseteq_length in Hsub.
    by rewrite length_fmap, length_seq in Hsub.
Qed.

Lemma improve_times_size k : forall (s : BitSet.t) t r t',
  improve_k k s t = Ok (r, t') -> BitSet.size r = BitSet.size s.
Proof.
  induction k as [|k IH]; intros s t r t' H; simpl in H.
  - unfold ret in H. by inversion H.
  - unfold bind in H.
    destruct (improve st problem s improveS rowSelectionS t)
      as [[s1 t1]|] eqn:E; [|discriminate].
    apply improve_size in E. apply IH in H. congruence.
Qed.

Lemma init_population_sized k : forall pop pCost t pop' pCost' t',
  init_population st problem improvements improveS rowSelectionS
    k pop pCost t = Ok ((pop', pCost'), t') ->
  sized pop -> sized pop'.
Proof.
  induction k as [|k IH]; intros pop pCost t pop' pCost' t' H Hs;
    simpl in H.
  - unfold ret in H. by inversion H; subst.
  - unfold bind in H.
    destruct (generate problem t) as [[s t1]|] eqn:Eg; [|discriminate].
    destruct (improve_k improvements s t1) as [[s1 t2]|] eqn:Ei;
      [|discriminate].
    apply generate_size in Eg. apply improve_times_size in Ei.
    apply IH in H; [done|].
    apply Forall_app. split; [done|]. apply Forall_singleton. congruence.
Qed.

Lemma breed_sized (pop : list BitSet.t) (selection : list Z) :
  sized pop ->
  forall rest newP t newP' t',
  breed problem xRate pop selection rest newP t = Ok (newP', t') ->
  sized newP -> sized newP'.
Proof.
  intros Hpop. induction rest as [|s rest IH]; intros newP t newP' t' H Hs;
    cbn [breed] in H.
  - unfold ret in H. by inversion H; subst.
  - unfold bind, random in H. destruct t as [|d t]; [discriminate|].
    destruct (Qltb (draw_val d) xRate); [|by eapply IH].
    unfold randInt in H. destruct t as [|d2 t]; [discriminate|].
    destruct (zlookup selection _ ≫= zlookup pop) as [b|] eqn:Eb;
      [|discriminate].
    destruct (zlookup pop s) as [a|] eqn:Ea; [|discriminate].
    destruct (crossover problem a b t) as [[[c1 c2] t1]|] eqn:Ec;
      [|discriminate].
    apply crossover_sizes in Ec as [H1 H2].
    apply zlookup_Some in Ea as (_ & _ & Ha).
    apply bind_Some in Eb as (r & _ & Eb).
    apply zlookup_Some in Eb as (_ & _ & Hb).
    rewrite Forall_forall in Hpop.
    apply IH in H; [done|].
    apply Forall_app. split; [done|].
    apply Forall_cons. split; [rewrite H1; by apply Hpop|].
    apply Forall_singleton. rewrite H2. by apply Hpop.
Qed.

Lemma replace_loop_sized newP : forall pop pCost t pop' pCost' t',
  replace_loop st problem improvements improveS rowSelectionS
    newP pop pCost t = Ok ((pop', pCost'), t') ->
  sized newP -> sized pop -> sized pop'.
Proof.
  induction newP as [|c newP IH]; intros pop pCost t pop' pCost' t' H Hn Hp;
    simpl in H.
  - unfold ret in H. by inversion H; subst.
  - unfold bind in H. inversion Hn as [|? ? Hc Hn']; subst.
    destruct (improve_k improvements c t) as [[c1 t1]|] eqn:Ei;
      [|discriminate].
    apply improve_times_size in Ei.
    destruct (zlookup pCost (findWorst st problem pop)) as [w|];
      [|by eapply IH].
    destruct (Qltb _ w); [|by eapply IH].
    eapply IH; [exact H|done|].
    apply Forall_insert; [done|congruence].
Qed.

Lemma generations_sized g : forall pop pCost t pop' pCost' t',
  generations st problem popSize improvements improveS rowSelectionS
    selRate xRate g pop pCost t = Ok ((pop', pCost'), t') ->
  sized pop -> sized pop'.
Proof.
  induction g as [|g IH]; intros pop pCost t pop' pCost' t' H Hp;
    simpl in H.
  - unfold ret in H. by inversion H; subst.
  - unfold bind in H.
    destruct (getCandidates st problem popSize selRate pop t)
      as [[selection t1]|]; [|discriminate].
    destruct (breed problem xRate pop selection selection [] t1)
      as [[newP t2]|] eqn:Eb; [|discriminate].
    destruct (replace_loop st problem improvements improveS rowSelectionS
                newP pop pCost t2) as [[[pop1 pCost1] t3]|] eqn:Er;
      [|discriminate].
    apply breed_sized in Eb; [|done|apply Forall_nil_2].
    apply replace_loop_sized in Er; [|done..].
    by eapply IH.
Qed.

(** X22: in a run of the driver the population has popSize members
    after the initialization and after every generation, each member
    has n bits, and the list of costs holds the value of each member at
    its index. *)
Theorem population_keeps_its_shape (t : tape) pop pCost t1 g pop' pCost' t2 :
  init_population st problem improvements improveS rowSelectionS
    popSize [] [] t = Ok ((pop, pCost), t1) ->
  generations st problem popSize improvements improveS rowSelectionS
    selRate xRate g pop pCost t1 = Ok ((pop', pCost'), t2) ->
  (length pop = popSize /\ sized pop /\ pCost = map val pop)
  /\ (length pop' = popSize /\ sized pop' /\ pCost' = map val pop').
Proof.
  intros Hi Hg.
  pose proof (init_population_sized _ _ _ _ _ _ _ Hi (Forall_nil_2 _)) as Hs.
  apply init_population_spec in Hi as [Hc Hl]; [|done].
  pose proof (generations_sized _ _ _ _ _ _ _ Hg Hs) as Hs'.
  apply generations_spec in Hg as (Hc' & Hl' & _); [|done].
  simpl in Hl. split; [done|]. split; [lia|]. done.
Qed.

(** X23: the solution that a run of [ssgarow] returns has n bits. *)
Theorem ssgarow_returns_n_bits (t : tape) r t' :
  ssgarow st problem popSize genN improvements improveS rowSelectionS
    selRate xRate t = Ok (r, t') ->
  BitSet.size r = n problem.
Proof.
  unfold ssgarow, bind. intros H.
  destruct (init_population _ _ _ _ _ _ _ _ t)
    as [[[pop pCost] t1]|] eqn:Ei; [|discriminate].
  destruct (generations _ _ _ _ _ _ _ _ _ _ _ t1)
    as [[[pop' pCost'] t2]|] eqn:Eg; [|discriminate].
  apply init_population_sized in Ei; [|apply Forall_nil_2].
  apply generations_sized in Eg; [|done].
  unfold finalize in H.
  destruct (zlookup pop' (findBest st problem pop')) as [s|] eqn:Es;
    [|discriminate].
  apply zlookup_Some in Es as (_ & _ & Hs).
  apply improve_times_size in H. rewrite H.
  rewrite Forall_forall in Eg. by apply Eg.
Qed.

End DriverMore.

Lemma generations_empty st problem improvements improveS rowSelectionS
    selRate xRate g (t : tape) :
  generations st problem 0 improvements improveS rowSelectionS
    selRate xRate g [] [] t = Ok (([], []), t).
Proof.
  revert t. induction g as [|g IH]; intros t; [done|].
  cbn [generations]. unfold bind, getCandidates.
  assert (Hnc : num_mul (Fin (Qnat 0)) (Fin selRate) = Fin (inject_Z 0)).
  { cbn [num_mul]. apply round64_int; [|done].
    unfold Qnat. change (inject_Z (Z.of_nat 0)) with 0%Q.
    change (inject_Z 0) with 0%Q. lra. }
  rewrite Hnc.
  assert (Hsel : getCandidates_loop st problem []
                   (num_floor (Fin (inject_Z 0))) t [] = Ok ([], t))
    by (by destruct t as [|da [|db t']]).
  rewrite Hsel. cbn [breed replace_loop]. unfold ret. apply IH.
Qed.

(** X24: with popSize 0 and at least one improvement per solution,
    [ssgarow] ends in a TypeError whatever the other parameters and the
    draws: the population stays empty, [findBest] gives -1, and the
    final improvement is applied to nothing. *)
Theorem ssgarow_empty_population_throws st problem genN improvements
    improveS rowSelectionS selRate xRate (t : tape) :
  1 <= improvements ->
  ssgarow st problem 0 genN improvements improveS rowSelectionS
    selRate xRate t = Err TypeError.
Proof.
  intros _. unfold ssgarow, bind. cbn [init_population]. unfold ret.
  rewrite generations_empty. done.
Qed.

(** ** Sets that list a row twice *)

Lemma NoDup_concat_member {A} (f : nat -> list A) (l : list nat) (j : nat) :
  j ∈ l -> NoDup (concat (map f l)) -> NoDup (f j).
Proof.
  induction l as [|i l IH]; [by intros ?%elem_of_nil|].
  simpl. intros Hj Hnd. apply NoDup_app in Hnd as (H1 & _ & H2).
  apply elem_of_cons in Hj as [->|Hj]; [done|by apply IH].
Qed.

(** X25: in a constructed problem [validate] never accepts a solution
    that selects a set in which some row is listed twice. *)
Theorem validate_rejects_repeated_row st st' rws ss cs pf p
    (s : BitSet.t) (j : nat) :
  SPProblem_new st rws ss cs pf = Ok (p, st') ->
  j < n p -> BitSet.get s j = true ->
  ~ NoDup (set_rows st' p j) ->
  validate st' p s = false.
Proof.
  intros Hnew Hj Hsel Hdup. unfold validate.
  pose proof (validate_loop_spec st' p s (seq 0 (n p))
                (BitSet.create (rows p)) []) as Hl.
  rewrite size_create in Hl. simpl in Hl.
  assert (H1 : forall i, i ∈ seq 0 (n p) ->
             Forall (fun r => r < rows p) (set_rows st' p i)).
  { intros i _. apply Forall_forall. intros r Hr.
    by eapply new_set_rows_lt. }
  assert (H2 : forall r, BitSet.get (BitSet.create (rows p)) r = true
                         <-> r ∈ @nil nat).
  { intros r. rewrite get_create. split; [discriminate|].
    by intros ?%elem_of_nil. }
  specialize (Hl H1 H2 (NoDup_nil_2)).
  destruct (validate_loop st' p s (BitSet.create (rows p)) (seq 0 (n p)))
    as [bs|]; [|done].
  destruct Hl as (Hnd & _). exfalso. apply Hdup.
  unfold visited in Hnd.
  apply (NoDup_concat_member (set_rows st' p)
           (List.filter (BitSet.get s) (seq 0 (n p))) j); [|done].
  apply list_elem_of_In, filter_In. split; [|done].
  apply list_elem_of_In, elem_of_seq. lia.
Qed.

(** ** Instances of the further properties *)

Lemma equalSolution_compares_prefix_witness :
  (equalSolution [true] [true; false] = true
   <-> [true] = take (BitSet.size [true]) [true; false])
  /\ (BitSet.size [true] = BitSet.size [true; false] ->
      (equalSolution [true] [true; false] = true
       <-> [true] = [true; false])).
Proof.
  apply (equalSolution_compares_prefix [true] [true; false]).
  vm_compute. lia.
Defined.

Lemma Ri_is_transpose_witness :
  count_occ Nat.eq_dec (row_at (Ri Ex.problem) 1) 3
  = count_occ Nat.eq_dec (set_rows Ex.store' Ex.problem 3) 1
  /\ (3 ∈ row_at (Ri Ex.problem) 1 <-> 1 ∈ set_rows Ex.store' Ex.problem 3).
Proof.
  apply (Ri_is_transpose Ex.store Ex.store' 3 [0; 1; 2; 3] 0 1 Ex.problem).
  vm_compute. reflexivity.
Defined.

Lemma Ri_rows_ascending_witness :
  StronglySorted le (row_at (Ri Ex.problem) 1)
  /\ Forall (fun j => j < n Ex.problem) (row_at (Ri Ex.problem) 1)
  /\ (sets_nodup Ex.store' Ex.problem -> NoDup (row_at (Ri Ex.problem) 1)).
Proof.
  apply (Ri_rows_ascending Ex.store Ex.store' 3 [0; 1; 2; 3] 0 1 Ex.problem).
  vm_compute. reflexivity.
Defined.

Lemma SPProblem_new_row_out_of_range_witness :
  SPProblem_new (mkStore [[0]; [5]] [[1; 1]%Q]) 3 [0; 1] 0 1
  = Err TypeError.
Proof.
  apply (SPProblem_new_row_out_of_range (mkStore [[0]; [5]] [[1; 1]%Q])
           3 [0; 1] 0 1 [1; 1]%Q 1 [5] 5).
  - reflexivity.
  - reflexivity.
  - repeat (constructor; [by eexists|]). constructor.
  - apply list_elem_of_further, list_elem_of_here.
  - reflexivity.
  - apply list_elem_of_here.
  - lia.
Defined.

Lemma init_keeps_total_and_average_witness :
  total_entries (Ri Ex.problem)
  = sum_list (map (fun j => length (set_rows Ex.store' Ex.problem j))
                  (seq 0 (n Ex.problem)))
  /\ averageNonZeros Ex.problem
     = num_div (Fin (Qnat (total_entries (Ri Ex.problem))))
               (Fin (Qnat (n Ex.problem)))
  /\ (n Ex.problem = 0 -> averageNonZeros Ex.problem = NaN).
Proof.
  apply (init_keeps_total_and_average Ex.store Ex.store' 3 [0; 1; 2; 3] 0 1
           Ex.problem).
  vm_compute. reflexivity.
Defined.


Lemma selectRow_Random_draws_a_row_witness :
  (rows Ex.problem = 0 ->
   selectRow Ex.problem [true; false; false; true] Random [draw_for 3 1]
   = Err TypeError)
  /\ (0 < rows Ex.problem ->
      exists k, k < rows Ex.problem
        /\ Z.of_nat k = randInt_of (draw_for 3 1) 0 (Z.of_nat (rows Ex.problem))
        /\ selectRow Ex.problem [true; false; false; true] Random
             [draw_for 3 1]
           = Ok (List.filter (BitSet.get [true; false; false; true])
                             (row_at (Ri Ex.problem) k), [])).
Proof.
  apply (selectRow_Random_draws_a_row Ex.problem [true; false; false; true]
           (draw_for 3 1) []).
  vm_compute. reflexivity.
Defined.

Lemma crossover_children_sizes_witness :
  BitSet.size [true; true; false; true; true]
  = BitSet.size [true; true; true; true; true]
  /\ BitSet.size [false; false; true; false; false]
     = BitSet.size [false; false; false; false; false]
  /\ length (@nil draw) + 2 * BitSet.size [true; true; true; true; true] + 2
     <= length Ex.cross_tape.
Proof.
  apply (crossover_children_sizes Ex.problem5
           [true; true; true; true; true]
           [false; false; false; false; false] Ex.cross_tape
           [true; true; false; true; true]
           [false; false; true; false; false] []).
  - reflexivity.
  - vm_compute. reflexivity.
Defined.

Lemma crossover_small_never_returns_witness :
  crossover Ex.problem [true; false] [false; true] Ex.run_tape
  = Err OutOfDraws.
Proof.
  apply (crossover_small_never_returns Ex.problem [true; false]
           [false; true] Ex.run_tape).
  vm_compute. lia.
Defined.

Lemma inRange_window_witness :
  (inRange Ex.problem5 3 3 0 3 3 = true
   <-> if (3 + 3 <? Z.of_nat (n Ex.problem5))%Z
       then (3 < 0 < 3 + 3)%Z
       else (3 < 0 \/ 0 <= 3 + 3 - Z.of_nat (n Ex.problem5))%Z)
  /\ inRange Ex.problem5 3 3 3 3 3 = false.
Proof.
  apply (inRange_window Ex.problem5 3 3 0);
    change (n Ex.problem5) with 5; lia.
Defined.

Lemma crossover_without_mutation_witness :
  exists ab ba,
    crossover Ex.problem5 [true; true; true; true; true]
      [false; false; false; false; false]
      (draw_for 5 1 :: [draw_for 4 0] ++ draw_for 4 2
         :: replicate 10 (Draw 1 0))
    = Ok ((ab, ba), [])
    /\ BitSet.size ab = BitSet.size [true; true; true; true; true]
    /\ BitSet.size ba = BitSet.size [false; false; false; false; false]
    /\ forall i, i < BitSet.size [true; true; true; true; true] ->
         let x := randInt_of (draw_for 5 1) 0
                    (Z.of_nat (BitSet.size [true; true; true; true; true])) in
         let distance :=
           randInt_of (draw_for 4 2) 0
             (Z.of_nat (BitSet.size [true; true; true; true; true]) - 1) in
         BitSet.get ab i
         = (if inRange Ex.problem5 x distance (Z.of_nat i) x distance
            then BitSet.get [false; false; false; false; false] i
            else BitSet.get [true; true; true; true; true] i)
         /\ BitSet.get ba i
            = (if inRange Ex.problem5 x distance (Z.of_nat i) x distance
               then BitSet.get [true; true; true; true; true] i
               else BitSet.get [false; false; false; false; false] i).
Proof.
  apply (crossover_without_mutation Ex.problem5
           [true; true; true; true; true]
           [false; false; false; false; false]
           (draw_for 5 1) [draw_for 4 0] (draw_for 4 2)
           (replicate 10 (Draw 1 0))).
  - reflexivity.
  - constructor; [vm_compute; reflexivity|constructor].
  - vm_compute. discriminate.
  - reflexivity.
  - unfold quiet. cbn [replicate].
    repeat (constructor; [vm_compute; reflexivity|]). constructor.
Defined.


Lemma tpx_twice_restores_parents_witness :
  exists ab ba,
    tpx [true; true; true; true] [false; false; false; false] (1 # 2)
        [draw_for 4 3]
    = Ok ((ab, ba), [])
    /\ tpx ab ba (1 # 2) [draw_for 4 3]
       = Ok (([true; true; true; true], [false; false; false; false]), []).
Proof.
  apply (tpx_twice_restores_parents [true; true; true; true]
           [false; false; false; false] (1 # 2) (draw_for 4 3) [] []).
  reflexivity.
Defined.

Lemma generate_never_returns_above_n_witness :
  generate ExMore.one_problem Ex.run_tape = Err OutOfDraws.
Proof.
  apply (generate_never_returns_above_n ExMore.one_problem Ex.run_tape).
  - vm_compute. lia.
  - right. exists 3%Q. split; vm_compute; reflexivity.
Defined.

Lemma getCandidates_distinct_members_witness :
  NoDup [1%Z]
  /\ Forall (fun c => exists s,
               zlookup [[true; false; false; false];
                        [false; false; false; true]] c = Some s) [1%Z]
  /\ ((exists m, num_mul (Fin (Qnat 2)) (Fin (1 # 2)) = Fin m
                 /\ length [1%Z] = Z.to_nat (Qfloor m))
      \/ (num_mul (Fin (Qnat 2)) (Fin (1 # 2)) = NInf /\ [1%Z] = []))
  /\ length [1%Z]
     <= length [[true; false; false; false]; [false; false; false; true]]
  /\ length (@nil draw) + 2 * length [1%Z]
     <= length [draw_for 2 0; draw_for 2 1].
Proof.
  apply (getCandidates_distinct_members Ex.store' Ex.problem 2 (1 # 2)
           [[true; false; false; false]; [false; false; false; true]]
           [draw_for 2 0; draw_for 2 1] [1%Z] []).
  vm_compute. reflexivity.
Defined.

Lemma population_keeps_its_shape_witness :
  (length [[true; true; false; false]; [false; false; false; true]] = 2
   /\ Forall (fun s : BitSet.t => BitSet.size s = n Ex.problem)
        [[true; true; false; false]; [false; false; false; true]]
   /\ map (value Ex.store' Ex.problem)
          [[true; true; false; false]; [false; false; false; true]]
      = map (value Ex.store' Ex.problem)
            [[true; true; false; false]; [false; false; false; true]])
  /\ (length [[false; false; false; true]; [false; false; false; true]] = 2
      /\ Forall (fun s : BitSet.t => BitSet.size s = n Ex.problem)
           [[false; false; false; true]; [false; false; false; true]]
      /\ map (value Ex.store' Ex.problem)
             [[false; false; false; true]; [false; false; false; true]]
         = map (value Ex.store' Ex.problem)
               [[false; false; false; true]; [false; false; false; true]]).
Proof.
  apply (population_keeps_its_shape Ex.store' Ex.problem 2 1 Best Max
           (1 # 2) (7 # 10) Ex.run_tape
           [[true; true; false; false]; [false; false; false; true]]
           (map (value Ex.store' Ex.problem)
              [[true; true; false; false]; [false; false; false; true]])
           (drop 4 Ex.run_tape) 1
           [[false; false; false; true]; [false; false; false; true]]
           (map (value Ex.store' Ex.problem)
              [[false; false; false; true]; [false; false; false; true]])
           []).
  - vm_compute. reflexivity.
  - vm_compute. reflexivity.
Defined.

Lemma ssgarow_returns_n_bits_witness :
  BitSet.size [false; false; false; true] = n Ex.problem.
Proof.
  apply (ssgarow_returns_n_bits Ex.store' Ex.problem 2 1 1 Best Max
           (1 # 2) (7 # 10) Ex.run_tape [false; false; false; true] []).
  vm_compute. reflexivity.
Defined.

Lemma ssgarow_empty_population_throws_witness :
  ssgarow Ex.store' Ex.problem 0 1 1 Best Max (1 # 2) (7 # 10) Ex.run_tape
  = Err TypeError.
Proof.
  apply (ssgarow_empty_population_throws Ex.store' Ex.problem 1 1 Best Max
           (1 # 2) (7 # 10) Ex.run_tape).
  lia.
Defined.

Lemma validate_rejects_repeated_row_witness :
  validate ExMore.dup_store' ExMore.dup_problem [true; true] = false.
Proof.
  apply (validate_rejects_repeated_row ExMore.dup_store ExMore.dup_store' 2 [0; 1] 0 1
           ExMore.dup_problem [true; true] 0).
  - vm_compute. reflexivity.
  - vm_compute. lia.
  - reflexivity.
  - vm_compute. intros H. apply NoDup_cons in H as [H _].
    apply H. apply list_elem_of_here.
Defined.
